(** * Falling Rocks: the simulation core of [src/App.tsx]

    A shallow embedding of the React component [App] and of the hook
    [useGameDimensions], followed by the properties of the simulation loop.

    Modelling conventions.
    - A JavaScript [number] that the program only ever fills with integers
      ([score], [lives], object ids, [Date.now()]) is a [Z].  Every other
      [number] (coordinates, sizes, speeds, viewport extents) is an exact
      rational [Q] in the session model; the formulas whose numeric range
      depends on rounding are read a second time in binary64 (module
      [Binary64]).
    - [Math.random()] is an input: every call site receives its own
      rational, expected in [0, 1).
    - React state is one record; the state updaters queued by one call of
      [gameLoop] are applied in the order in which they are queued. *)

From Stdlib Require Import ZArith QArith Qround Qminmax Qpower Lia Lqa.
From Stdlib Require Import List Sorted String Bool.
Import ListNotations.
From Stdlib Require Uint63 PrimFloat FloatOps SpecFloat.

Open Scope Q_scope.

(** ** Data model *)

(** [type: 'rock' | 'coin' | 'star' | 'gem'] *)
Inductive ObjType : Type := rock | coin | star | gem.

Definition ObjType_eqb (a b : ObjType) : bool :=
  match a, b with
  | rock, rock | coin, coin | star, star | gem, gem => true
  | _, _ => false
  end.

(** [interface GameObject] *)
Module GameObject.
Record t : Type := mk
  { id : Z; x : Q; y : Q; speed : Q; type : ObjType }.
End GameObject.

(** [interface Player] *)
Module Player.
Record t : Type := mk
  { x : Q; y : Q; width : Q; height : Q }.
End Player.

(** [interface GameDimensions]; the two font sizes are kept as pixel counts
    (the source formats them as ["<n>px"]). *)
Module GameDimensions.
Record t : Type := mk
  { width : Q; height : Q; playerSize : Q; objectSize : Q;
    playerSpeed : Q; fontSizeObject : Q; fontSizePlayer : Q }.
End GameDimensions.

(** [touchDirection: 'left' | 'right' | null] is an [option Direction]. *)
Inductive Direction : Type := left | right.

(** The three values [spawnObject] takes from [Math.random()], in the order
    of the calls: the category, the base speed, the horizontal position. *)
Record Random : Type := mkRandom
  { rType : Q; rSpeed : Q; rX : Q }.

(** ** Constants *)

Definition BASE_WIDTH : Q := 800.
Definition BASE_HEIGHT : Q := 600.
Definition BASE_PLAYER_SIZE : Q := 40.
Definition BASE_OBJECT_SIZE : Q := 30.
Definition BASE_PLAYER_SPEED : Q := 8.
Definition MIN_WIDTH : Q := 280.
Definition MIN_HEIGHT : Q := 200.
Definition MIN_SCALE : Q := 0.35.

(** [Math.floor], as a number again. *)
Definition Math_floor (q : Q) : Q := inject_Z (Qfloor q).

(** ** Dimension provider: [calculateDimensions]

    [window.innerWidth] and [window.innerHeight] are the two arguments. *)

Definition calculateScale (innerWidth innerHeight : Q) : Q :=
  let availableWidth := innerWidth - 16 in
  let availableHeight := innerHeight * 0.6 in
  let widthScale := availableWidth / BASE_WIDTH in
  let heightScale := availableHeight / BASE_HEIGHT in
  let rawScale := Qmin (Qmin widthScale heightScale) 1 in
  Qmax rawScale MIN_SCALE.

Definition calculateDimensions (innerWidth innerHeight : Q) : GameDimensions.t :=
  let availableWidth := innerWidth - 16 in
  let scale := calculateScale innerWidth innerHeight in
  let width :=
    Qmax MIN_WIDTH (Qmin (Math_floor (BASE_WIDTH * scale)) availableWidth) in
  let height := Qmax MIN_HEIGHT (Math_floor (BASE_HEIGHT * scale)) in
  let playerSize := Qmax 20 (Math_floor (BASE_PLAYER_SIZE * scale)) in
  let objectSize := Qmax 16 (Math_floor (BASE_OBJECT_SIZE * scale)) in
  let playerSpeed := Qmax 3 (BASE_PLAYER_SPEED * scale) in
  {| GameDimensions.width := width;
     GameDimensions.height := height;
     GameDimensions.playerSize := playerSize;
     GameDimensions.objectSize := objectSize;
     GameDimensions.playerSpeed := playerSpeed;
     GameDimensions.fontSizeObject := Qmax 14 (Math_floor (24 * scale));
     GameDimensions.fontSizePlayer := Qmax 18 (Math_floor (32 * scale)) |}.

(** ** Component state

    The [useState] cells and [useRef] boxes of [App].  [dims] is the value
    of [useGameDimensions()]; [dimsRef.current] is assigned from it after
    every render, so one field stands for both. *)

Record App : Type := mkApp
  { dims : GameDimensions.t;
    gameStarted : bool;
    gameOver : bool;
    score : Z;
    lives : Z;
    player : Player.t;
    objects : list GameObject.t;
    keys : list string;
    touchDirection : option Direction;
    objectIdRef : Z;
    lastSpawnRef : Z }.

(** The state setters; as in React, a setter takes an updater. *)

Definition setDimensions (d : GameDimensions.t) (s : App) : App :=
  mkApp d (gameStarted s) (gameOver s) (score s) (lives s) (player s)
        (objects s) (keys s) (touchDirection s) (objectIdRef s) (lastSpawnRef s).

Definition setGameStarted (b : bool) (s : App) : App :=
  mkApp (dims s) b (gameOver s) (score s) (lives s) (player s)
        (objects s) (keys s) (touchDirection s) (objectIdRef s) (lastSpawnRef s).

Definition setGameOver (b : bool) (s : App) : App :=
  mkApp (dims s) (gameStarted s) b (score s) (lives s) (player s)
        (objects s) (keys s) (touchDirection s) (objectIdRef s) (lastSpawnRef s).

Definition setScore (f : Z -> Z) (s : App) : App :=
  mkApp (dims s) (gameStarted s) (gameOver s) (f (score s)) (lives s) (player s)
        (objects s) (keys s) (touchDirection s) (objectIdRef s) (lastSpawnRef s).

Definition setLives (f : Z -> Z) (s : App) : App :=
  mkApp (dims s) (gameStarted s) (gameOver s) (score s) (f (lives s)) (player s)
        (objects s) (keys s) (touchDirection s) (objectIdRef s) (lastSpawnRef s).

Definition setPlayer (f : Player.t -> Player.t) (s : App) : App :=
  mkApp (dims s) (gameStarted s) (gameOver s) (score s) (lives s) (f (player s))
        (objects s) (keys s) (touchDirection s) (objectIdRef s) (lastSpawnRef s).

Definition setObjects (f : list GameObject.t -> list GameObject.t) (s : App) : App :=
  mkApp (dims s) (gameStarted s) (gameOver s) (score s) (lives s) (player s)
        (f (objects s)) (keys s) (touchDirection s) (objectIdRef s) (lastSpawnRef s).

Definition setKeys (f : list string -> list string) (s : App) : App :=
  mkApp (dims s) (gameStarted s) (gameOver s) (score s) (lives s) (player s)
        (objects s) (f (keys s)) (touchDirection s) (objectIdRef s) (lastSpawnRef s).

Definition setTouchDirection (d : option Direction) (s : App) : App :=
  mkApp (dims s) (gameStarted s) (gameOver s) (score s) (lives s) (player s)
        (objects s) (keys s) d (objectIdRef s) (lastSpawnRef s).

Definition setObjectIdRef (n : Z) (s : App) : App :=
  mkApp (dims s) (gameStarted s) (gameOver s) (score s) (lives s) (player s)
        (objects s) (keys s) (touchDirection s) n (lastSpawnRef s).

Definition setLastSpawnRef (n : Z) (s : App) : App :=
  mkApp (dims s) (gameStarted s) (gameOver s) (score s) (lives s) (player s)
        (objects s) (keys s) (touchDirection s) (objectIdRef s) n.

(** The player record written by the initial [useState], by the effect on
    [dims] and by [startGame]: centred, 20 above the bottom edge. *)
Definition centredPlayer (d : GameDimensions.t) : Player.t :=
  {| Player.x := GameDimensions.width d / 2 - GameDimensions.playerSize d / 2;
     Player.y := GameDimensions.height d - GameDimensions.playerSize d - 20;
     Player.width := GameDimensions.playerSize d;
     Player.height := GameDimensions.playerSize d |}.

(** The state after the first render, for a given window. *)
Definition mount (innerWidth innerHeight : Q) : App :=
  let d := calculateDimensions innerWidth innerHeight in
  {| dims := d;
     gameStarted := false;
     gameOver := false;
     score := 0;
     lives := 3;
     player := centredPlayer d;
     objects := [];
     keys := [];
     touchDirection := None;
     objectIdRef := 0;
     lastSpawnRef := 0 |}.

(** ** Entity spawner: [spawnObject] *)

Definition types : list ObjType := [rock; rock; coin; star; gem].

(** [types[Math.floor(Math.random() * types.length)]].  The index is inside
    the table whenever [0 <= r < 1] (lemma [pickType_in_table]); the default
    of [nth] stands for no call the program makes. *)
Definition typeIndex (r : Q) : Z :=
  Qfloor (r * inject_Z (Z.of_nat (List.length types))).

Definition pickType (r : Q) : ObjType :=
  nth (Z.to_nat (typeIndex r)) types rock.

(** [type === 'rock' ? 3 + Math.random() * 2 : 2 + Math.random() * 1.5] *)
Definition baseSpeed (ty : ObjType) (r : Q) : Q :=
  if ObjType_eqb ty rock then 3 + r * 2 else 2 + r * 1.5.

Definition newObject (rnd : Random) (s : App) : GameObject.t :=
  let type := pickType (rType rnd) in
  let currentDims := dims s in
  let baseSpeed := baseSpeed type (rSpeed rnd) in
  let scaledSpeed := baseSpeed * (GameDimensions.height currentDims / BASE_HEIGHT) in
  {| GameObject.id := objectIdRef s;
     GameObject.x :=
       rX rnd * (GameDimensions.width currentDims - GameDimensions.objectSize currentDims);
     GameObject.y := - GameDimensions.objectSize currentDims;
     GameObject.speed := scaledSpeed;
     GameObject.type := type |}.

Definition spawnObject (rnd : Random) (s : App) : App :=
  let o := newObject rnd s in
  setObjects (fun prev => prev ++ [o]) (setObjectIdRef (objectIdRef s + 1) s).

(** ** Kinematics and collision *)

Definition Qltb (a b : Q) : bool := negb (Qle_bool b a).

Definition checkCollision (currentDims : GameDimensions.t)
    (obj : GameObject.t) (plr : Player.t) : bool :=
  Qltb (GameObject.x obj) (Player.x plr + Player.width plr)
  && Qltb (Player.x plr) (GameObject.x obj + GameDimensions.objectSize currentDims)
  && Qltb (GameObject.y obj) (Player.y plr + Player.height plr)
  && Qltb (Player.y plr) (GameObject.y obj + GameDimensions.objectSize currentDims).

Definition has (ks : list string) (k : string) : bool :=
  existsb (String.eqb k) ks.

Definition Direction_eqb (a b : Direction) : bool :=
  match a, b with
  | left, left | right, right => true
  | _, _ => false
  end.

Definition touchIs (t : option Direction) (d : Direction) : bool :=
  match t with
  | Some d' => Direction_eqb d' d
  | None => false
  end.

Definition isMovingLeft (s : App) : bool :=
  has (keys s) "ArrowLeft"%string || has (keys s) "a"%string || has (keys s) "A"%string
  || touchIs (touchDirection s) left.

Definition isMovingRight (s : App) : bool :=
  has (keys s) "ArrowRight"%string || has (keys s) "d"%string || has (keys s) "D"%string
  || touchIs (touchDirection s) right.

(** The updater handed to [setPlayer] inside [gameLoop]. *)
Definition movePlayer (currentDims : GameDimensions.t)
    (movingLeft movingRight : bool) (prev : Player.t) : Player.t :=
  let newX := Player.x prev in
  let newX :=
    if movingLeft
    then Qmax 0 (Player.x prev - GameDimensions.playerSpeed currentDims)
    else newX in
  let newX :=
    if movingRight
    then Qmin (GameDimensions.width currentDims - GameDimensions.playerSize currentDims)
              (Player.x prev + GameDimensions.playerSpeed currentDims)
    else newX in
  {| Player.x := newX;
     Player.y := Player.y prev;
     Player.width := Player.width prev;
     Player.height := Player.height prev |}.

(** [obj => ({ ...obj, y: obj.y + obj.speed })] *)
Definition fall (obj : GameObject.t) : GameObject.t :=
  {| GameObject.id := GameObject.id obj;
     GameObject.x := GameObject.x obj;
     GameObject.y := GameObject.y obj + GameObject.speed obj;
     GameObject.speed := GameObject.speed obj;
     GameObject.type := GameObject.type obj |}.

(** The branch of the [forEach] body taken for a colliding object. *)
Definition onCollision (ty : ObjType) (s : App) : App :=
  match ty with
  | rock =>
      let newLives := (lives s - 1)%Z in
      let s := if (newLives <=? 0)%Z then setGameOver true s else s in
      setLives (fun _ => newLives) s
  | coin => setScore (fun sc => (sc + 10)%Z) s
  | star => setScore (fun sc => (sc + 25)%Z) s
  | gem => setScore (fun sc => (sc + 50)%Z) s
  end.

(** The [forEach] body; the accumulator pairs the component state with the
    local array [remaining]. *)
Definition forEachBody (currentDims : GameDimensions.t) (currentPlayer : Player.t)
    (acc : App * list GameObject.t) (obj : GameObject.t) : App * list GameObject.t :=
  let (s, remaining) := acc in
  if checkCollision currentDims obj currentPlayer
  then (onCollision (GameObject.type obj) s, remaining)
  else (s, remaining ++ [obj]).

(** [.map(fall).filter(obj => obj.y < currentDims.height)] *)
Definition updated (currentDims : GameDimensions.t) (prev : list GameObject.t)
    : list GameObject.t :=
  filter (fun obj => Qltb (GameObject.y obj) (GameDimensions.height currentDims))
         (map fall prev).

(** ** Frame: [gameLoop] *)

(** The spawn block at the head of [gameLoop]. *)
Definition trySpawn (now : Z) (rnd : Random) (s : App) : App :=
  if (now - lastSpawnRef s >? 1000)%Z
  then setLastSpawnRef now (spawnObject rnd s)
  else s.

Definition gameLoop (now : Z) (rnd : Random) (s : App) : App :=
  if negb (gameStarted s) || gameOver s then s else
  let currentDims := dims s in
  let s := trySpawn now rnd s in
  let currentPlayer :=
    movePlayer currentDims (isMovingLeft s) (isMovingRight s) (player s) in
  let s := setPlayer (fun _ => currentPlayer) s in
  let (s, remaining) :=
    fold_left (forEachBody currentDims currentPlayer)
              (updated currentDims (objects s)) (s, []) in
  setObjects (fun _ => remaining) s.

(** ** Commands and input handlers *)

Definition startGame (now : Z) (s : App) : App :=
  let s := setGameStarted true s in
  let s := setGameOver false s in
  let s := setScore (fun _ => 0%Z) s in
  let s := setLives (fun _ => 3%Z) s in
  let s := setObjects (fun _ => []) s in
  let s := setPlayer (fun _ => centredPlayer (dims s)) s in
  setLastSpawnRef now s.

(** [handleResize], followed by the effect on [[dims, gameStarted]] that
    re-centres the player while the game has not started. *)
Definition handleResize (innerWidth innerHeight : Q) (s : App) : App :=
  let d := calculateDimensions innerWidth innerHeight in
  let s := setDimensions d s in
  if negb (gameStarted s) then setPlayer (fun _ => centredPlayer d) s else s.

(** [new Set(prev).add(e.key)] and [newKeys.delete(e.key)] on a list
    without duplicates. *)
Definition handleKeyDown (key : string) (s : App) : App :=
  setKeys (fun prev => if has prev key then prev else prev ++ [key]) s.

Definition handleKeyUp (key : string) (s : App) : App :=
  setKeys (filter (fun k => negb (String.eqb key k))) s.

Definition handleTouchStart (direction : Direction) (s : App) : App :=
  setTouchDirection (Some direction) s.

Definition handleTouchEnd (s : App) : App :=
  setTouchDirection None s.

(** ** Sessions: everything that can happen to a mounted component *)

Inductive Event : Type :=
| Resize (innerWidth innerHeight : Q)
| KeyDown (key : string)
| KeyUp (key : string)
| TouchStart (direction : Direction)
| TouchEnd
| Start (now : Z)
| Frame (now : Z) (rnd : Random).

Definition handle (s : App) (e : Event) : App :=
  match e with
  | Resize w h => handleResize w h s
  | KeyDown k => handleKeyDown k s
  | KeyUp k => handleKeyUp k s
  | TouchStart d => handleTouchStart d s
  | TouchEnd => handleTouchEnd s
  | Start now => startGame now s
  | Frame now rnd => gameLoop now rnd s
  end.

Definition run (s : App) (es : list Event) : App := fold_left handle es s.

(** A state is reachable when some window size and some sequence of events
    lead to it. *)
Definition reachable (s : App) : Prop :=
  exists w h es, s = run (mount w h) es.

(** The three phases of the specification, read off the two flags. *)
Inductive Phase : Type := NotStarted | Running | GameOver.

Definition phase (s : App) : Phase :=
  if negb (gameStarted s) then NotStarted
  else if gameOver s then GameOver else Running.

(** ** Statement vocabulary *)

(** What a collision with an object of a given category adds to the score. *)
Definition reward (ty : ObjType) : Z :=
  match ty with
  | rock => 0
  | coin => 10
  | star => 25
  | gem => 50
  end.

(** The pieces of one running frame, named after the locals of [gameLoop]. *)
Definition currentPlayer (s : App) : Player.t :=
  movePlayer (dims s) (isMovingLeft s) (isMovingRight s) (player s).

Definition frameUpdated (now : Z) (rnd : Random) (s : App) : list GameObject.t :=
  updated (dims s) (objects (trySpawn now rnd s)).

Definition frameHits (now : Z) (rnd : Random) (s : App) : list GameObject.t :=
  filter (fun obj => checkCollision (dims s) obj (currentPlayer s))
         (frameUpdated now rnd s).

Definition frameRemaining (now : Z) (rnd : Random) (s : App) : list GameObject.t :=
  filter (fun obj => negb (checkCollision (dims s) obj (currentPlayer s)))
         (frameUpdated now rnd s).

(** The outcome events of a frame: the categories of the colliding objects,
    in list order. *)
Definition frameOutcomes (now : Z) (rnd : Random) (s : App) : list ObjType :=
  map GameObject.type (frameHits now rnd s).

Definition ObjType_eq_dec (a b : ObjType) : {a = b} + {a <> b}.
Proof. decide equality. Defined.

Definition hazards (tys : list ObjType) : Z :=
  Z.of_nat (count_occ ObjType_eq_dec tys rock).

Definition rewards (tys : list ObjType) : Z :=
  fold_right (fun ty acc => (reward ty + acc)%Z) 0%Z tys.

(** The collisions of a frame, applied one after the other. *)
Definition inject (tys : list ObjType) (s : App) : App :=
  fold_left (fun s ty => onCollision ty s) tys s.

(** The clamp the specification gives for every derived size:
    [floor (base * scale)], not below [minimum]. *)
Definition floorClamp (base minimum scale : Q) : Q :=
  Qmax minimum (Math_floor (base * scale)).

(** ** Scenarios and predicates used by the statements *)

(** The fixed-size field of the first [App] of the source (constants
    [GAME_WIDTH], [GAME_HEIGHT], [PLAYER_SIZE], [OBJECT_SIZE],
    [PLAYER_SPEED]) is the base geometry of the responsive one. *)
Definition fixedDims : GameDimensions.t :=
  {| GameDimensions.width := 800;
     GameDimensions.height := 600;
     GameDimensions.playerSize := 40;
     GameDimensions.objectSize := 30;
     GameDimensions.playerSpeed := 8;
     GameDimensions.fontSizeObject := 24;
     GameDimensions.fontSizePlayer := 32 |}.

(** The invariant that ties [lives] to the two flags. *)
Definition livesInvariant (s : App) : Prop :=
  (lives s <= 3)%Z
  /\ (gameOver s = true <-> (lives s <= 0)%Z)
  /\ (gameOver s = true -> gameStarted s = true).

(** A session at 60 frames a second (one frame every 17 ms) on the full
    800 x 600 field, the player standing still at x = 380.  Objects are
    spawned in frames 59, 118, 177, 236, 295 and 354.  The first two are
    rocks above the player that hit one after the other (frames 179 and
    238); the rocks of frames 177 (speed 3) and 236 (speed 4.44) come down
    on the player together in frame 357. *)
Definition rockAbovePlayer (r : Q) : Random := mkRandom 0 r (1 # 2).
Definition coinAtTheEdge : Random := mkRandom (1 # 2) 0 0.

Definition rndAt (k : nat) : Random :=
  match k with
  | 59%nat | 118%nat => rockAbovePlayer (3 # 4)
  | 177%nat => rockAbovePlayer 0
  | 236%nat => rockAbovePlayer (18 # 25)
  | _ => coinAtTheEdge
  end.

Definition frameNo (k : nat) : Event := Frame (17 * Z.of_nat k) (rndAt k).

Definition frames (first count : nat) : list Event := map frameNo (seq first count).

Definition doubleHit : list Event := Start 0 :: frames 1 357.

(** An object just above the player of the 800 x 600 field: one more step
    of 3 brings it to y = 513, inside the player's box. *)
Definition overPlayer (n : Z) (ty : ObjType) : GameObject.t :=
  {| GameObject.id := n;
     GameObject.x := 385;
     GameObject.y := 510;
     GameObject.speed := 3;
     GameObject.type := ty |}.

(** A running game on the 800 x 600 field with the given lives and objects. *)
Definition staged (l : Z) (objs : list GameObject.t) : App :=
  setObjects (fun _ => objs) (setLives (fun _ => l) (startGame 0 (mount 816 1000))).

(** The claim of the specification: [lives] stays within [0, 3]. *)
Definition livesWithinBounds : Prop :=
  forall s, reachable s -> (0 <= lives s <= 3)%Z.

(** The clock readings of the frames that spawned an object, in order; a
    frame has spawned when it has advanced the id counter. *)
Fixpoint spawnTimes (s : App) (es : list Event) : list Z :=
  match es with
  | [] => []
  | e :: es' =>
      let s' := handle s e in
      match e with
      | Frame now _ => if (objectIdRef s <? objectIdRef s')%Z then [now] else []
      | _ => []
      end ++ spawnTimes s' es'
  end.

Definition isStart (e : Event) : bool :=
  match e with
  | Start _ => true
  | _ => false
  end.

(** Every reading is more than 1000 ms after the one before it, the first
    one after [last]. *)
Fixpoint gapped (last : Z) (ts : list Z) : Prop :=
  match ts with
  | [] => True
  | t :: ts' => (1000 < t - last)%Z /\ gapped t ts'
  end.

(** What a game in phase [GameOver] keeps until it is restarted. *)
Definition sameOutcome (s s' : App) : Prop :=
  score s' = score s /\ lives s' = lives s /\ objects s' = objects s
  /\ player s' = player s
  /\ gameStarted s' = gameStarted s /\ gameOver s' = gameOver s.

(** The claim of the specification: a frame treats the objects already on
    the field in the same way before and after a resize (no spawn is due in
    the frame, so only those objects are concerned). *)
Definition geometrySwapTransparent : Prop :=
  forall (s : App) (w h : Q) (now : Z) (rnd : Random),
    reachable s -> phase s = Running -> (now - lastSpawnRef s <= 1000)%Z ->
    let a := gameLoop now rnd s in
    let b := gameLoop now rnd (handleResize w h s) in
    objects b = objects a /\ score b = score a /\ lives b = lives a.

Definition playerContained (s : App) : Prop :=
  0 <= Player.x (player s)
  <= GameDimensions.width (dims s) - GameDimensions.playerSize (dims s).

(** A geometry on which the clamps of [movePlayer] make sense. *)
Definition playable (d : GameDimensions.t) : Prop :=
  GameDimensions.playerSize d <= GameDimensions.width d
  /\ 0 <= GameDimensions.playerSpeed d.

Definition isResize (e : Event) : bool :=
  match e with
  | Resize _ _ => true
  | _ => false
  end.

(** ** Presentation values derived from the geometry *)

(** [groundHeight] of the render. *)
Definition groundHeight (d : GameDimensions.t) : Q :=
  Qmax 8 (Math_floor (12 * (GameDimensions.height d / BASE_HEIGHT))).

Definition isInteger (q : Q) : Prop := exists n : Z, q == inject_Z n.

(** ** Session predicates *)

(** The state of a game that has never been started. *)
Definition fresh (s : App) : Prop :=
  gameOver s = false /\ score s = 0%Z /\ lives s = 3%Z /\ objects s = []
  /\ player s = centredPlayer (dims s)
  /\ objectIdRef s = 0%Z /\ lastSpawnRef s = 0%Z.

(** The range every output of [calculateDimensions] lies in. *)
Definition boxed (d : GameDimensions.t) : Prop :=
  280 <= GameDimensions.width d <= 800
  /\ 200 <= GameDimensions.height d <= 600
  /\ 20 <= GameDimensions.playerSize d <= 40
  /\ 16 <= GameDimensions.objectSize d <= 30
  /\ 3 <= GameDimensions.playerSpeed d <= 8.

(** The render keys of the object list. *)
Definition ids (l : list GameObject.t) : list Z := map GameObject.id l.

(** The three hearts of the score bar: heart [i] is filled when
    [i < lives]. *)
Definition hearts (s : App) : list bool :=
  map (fun i => (i <? lives s)%Z) [0; 1; 2]%Z.

Definition filledHearts (s : App) : Z :=
  Z.of_nat (List.length (filter (fun b => b) (hearts s))).

Definition noResize (e : Event) : bool := negb (isResize e).

(** Ids increase along the object list and stay below the counter. *)
Definition idsInvariant (s : App) : Prop :=
  StronglySorted Z.lt (ids (objects s))
  /\ Forall (fun i => (0 <= i < objectIdRef s)%Z) (ids (objects s))
  /\ (0 <= objectIdRef s)%Z.

(** A value [Math.random()] can return, three times. *)
Definition validRandom (rnd : Random) : Prop :=
  0 <= rType rnd < 1 /\ 0 <= rSpeed rnd < 1 /\ 0 <= rX rnd < 1.

Definition validEvent (e : Event) : Prop :=
  match e with
  | Frame _ rnd => validRandom rnd
  | _ => True
  end.

(** What holds of every object on the field, whatever the window was when
    it was spawned. *)
Definition wellFormedObject (o : GameObject.t) : Prop :=
  2 # 3 <= GameObject.speed o <= 5
  /\ 0 <= GameObject.x o < 784
  /\ - (30) <= GameObject.y o.

(** The test a falling object passes to stay on the field for another
    frame. *)
Definition stays (d : GameDimensions.t) (p : Player.t) (o : GameObject.t) : bool :=
  Qltb (GameObject.y o) (GameDimensions.height d) && negb (checkCollision d o p).

(** ** The fixed-size game

    The first [App] of the source: the same game on a field of constant
    size, with keyboard input only.  Its [spawnObject] calls
    [Math.random()] for the category, then for x, then for the speed; the
    fields of [Random] are named after their use, so the same record serves
    both games. *)

Module Fixed.

Definition GAME_WIDTH : Q := 800.
Definition GAME_HEIGHT : Q := 600.
Definition PLAYER_SIZE : Q := 40.
Definition OBJECT_SIZE : Q := 30.
Definition PLAYER_SPEED : Q := 8.

Record App : Type := mkApp
  { gameStarted : bool;
    gameOver : bool;
    score : Z;
    lives : Z;
    player : Player.t;
    objects : list GameObject.t;
    keys : list string;
    objectIdRef : Z;
    lastSpawnRef : Z }.

Definition setGameStarted (b : bool) (s : App) : App :=
  mkApp b (gameOver s) (score s) (lives s) (player s) (objects s) (keys s)
        (objectIdRef s) (lastSpawnRef s).

Definition setGameOver (b : bool) (s : App) : App :=
  mkApp (gameStarted s) b (score s) (lives s) (player s) (objects s) (keys s)
        (objectIdRef s) (lastSpawnRef s).

Definition setScore (f : Z -> Z) (s : App) : App :=
  mkApp (gameStarted s) (gameOver s) (f (score s)) (lives s) (player s) (objects s)
        (keys s) (objectIdRef s) (lastSpawnRef s).

Definition setLives (f : Z -> Z) (s : App) : App :=
  mkApp (gameStarted s) (gameOver s) (score s) (f (lives s)) (player s) (objects s)
        (keys s) (objectIdRef s) (lastSpawnRef s).

Definition setPlayer (f : Player.t -> Player.t) (s : App) : App :=
  mkApp (gameStarted s) (gameOver s) (score s) (lives s) (f (player s)) (objects s)
        (keys s) (objectIdRef s) (lastSpawnRef s).

Definition setObjects (f : list GameObject.t -> list GameObject.t) (s : App) : App :=
  mkApp (gameStarted s) (gameOver s) (score s) (lives s) (player s) (f (objects s))
        (keys s) (objectIdRef s) (lastSpawnRef s).

Definition setKeys (f : list string -> list string) (s : App) : App :=
  mkApp (gameStarted s) (gameOver s) (score s) (lives s) (player s) (objects s)
        (f (keys s)) (objectIdRef s) (lastSpawnRef s).

Definition setObjectIdRef (n : Z) (s : App) : App :=
  mkApp (gameStarted s) (gameOver s) (score s) (lives s) (player s) (objects s)
        (keys s) n (lastSpawnRef s).

Definition setLastSpawnRef (n : Z) (s : App) : App :=
  mkApp (gameStarted s) (gameOver s) (score s) (lives s) (player s) (objects s)
        (keys s) (objectIdRef s) n.

Definition initialPlayer : Player.t :=
  {| Player.x := GAME_WIDTH / 2 - PLAYER_SIZE / 2;
     Player.y := GAME_HEIGHT - PLAYER_SIZE - 20;
     Player.width := PLAYER_SIZE;
     Player.height := PLAYER_SIZE |}.

Definition mount : App :=
  {| gameStarted := false;
     gameOver := false;
     score := 0;
     lives := 3;
     player := initialPlayer;
     objects := [];
     keys := [];
     objectIdRef := 0;
     lastSpawnRef := 0 |}.

Definition newObject (rnd : Random) (s : App) : GameObject.t :=
  let type := pickType (rType rnd) in
  {| GameObject.id := objectIdRef s;
     GameObject.x := rX rnd * (GAME_WIDTH - OBJECT_SIZE);
     GameObject.y := - OBJECT_SIZE;
     GameObject.speed := baseSpeed type (rSpeed rnd);
     GameObject.type := type |}.

Definition spawnObject (rnd : Random) (s : App) : App :=
  let o := newObject rnd s in
  setObjects (fun prev => prev ++ [o]) (setObjectIdRef (objectIdRef s + 1) s).

Definition checkCollision (obj : GameObject.t) (plr : Player.t) : bool :=
  Qltb (GameObject.x obj) (Player.x plr + Player.width plr)
  && Qltb (Player.x plr) (GameObject.x obj + OBJECT_SIZE)
  && Qltb (GameObject.y obj) (Player.y plr + Player.height plr)
  && Qltb (Player.y plr) (GameObject.y obj + OBJECT_SIZE).

Definition isMovingLeft (s : App) : bool :=
  has (keys s) "ArrowLeft"%string || has (keys s) "a"%string || has (keys s) "A"%string.

Definition isMovingRight (s : App) : bool :=
  has (keys s) "ArrowRight"%string || has (keys s) "d"%string || has (keys s) "D"%string.

Definition movePlayer (movingLeft movingRight : bool) (prev : Player.t) : Player.t :=
  let newX := Player.x prev in
  let newX := if movingLeft then Qmax 0 (Player.x prev - PLAYER_SPEED) else newX in
  let newX :=
    if movingRight
    then Qmin (GAME_WIDTH - PLAYER_SIZE) (Player.x prev + PLAYER_SPEED)
    else newX in
  {| Player.x := newX;
     Player.y := Player.y prev;
     Player.width := Player.width prev;
     Player.height := Player.height prev |}.

Definition onCollision (ty : ObjType) (s : App) : App :=
  match ty with
  | rock =>
      let newLives := (lives s - 1)%Z in
      let s := if (newLives <=? 0)%Z then setGameOver true s else s in
      setLives (fun _ => newLives) s
  | coin => setScore (fun sc => (sc + 10)%Z) s
  | star => setScore (fun sc => (sc + 25)%Z) s
  | gem => setScore (fun sc => (sc + 50)%Z) s
  end.

Definition forEachBody (currentPlayer : Player.t)
    (acc : App * list GameObject.t) (obj : GameObject.t) : App * list GameObject.t :=
  let (s, remaining) := acc in
  if checkCollision obj currentPlayer
  then (onCollision (GameObject.type obj) s, remaining)
  else (s, remaining ++ [obj]).

Definition updated (prev : list GameObject.t) : list GameObject.t :=
  filter (fun obj => Qltb (GameObject.y obj) GAME_HEIGHT) (map fall prev).

Definition trySpawn (now : Z) (rnd : Random) (s : App) : App :=
  if (now - lastSpawnRef s >? 1000)%Z
  then setLastSpawnRef now (spawnObject rnd s)
  else s.

Definition gameLoop (now : Z) (rnd : Random) (s : App) : App :=
  if negb (gameStarted s) || gameOver s then s else
  let s := trySpawn now rnd s in
  let currentPlayer := movePlayer (isMovingLeft s) (isMovingRight s) (player s) in
  let s := setPlayer (fun _ => currentPlayer) s in
  let (s, remaining) :=
    fold_left (forEachBody currentPlayer) (updated (objects s)) (s, []) in
  setObjects (fun _ => remaining) s.

Definition startGame (now : Z) (s : App) : App :=
  let s := setGameStarted true s in
  let s := setGameOver false s in
  let s := setScore (fun _ => 0%Z) s in
  let s := setLives (fun _ => 3%Z) s in
  let s := setObjects (fun _ => []) s in
  let s := setPlayer (fun _ => initialPlayer) s in
  setLastSpawnRef now s.

Definition handleKeyDown (key : string) (s : App) : App :=
  setKeys (fun prev => if has prev key then prev else prev ++ [key]) s.

Definition handleKeyUp (key : string) (s : App) : App :=
  setKeys (filter (fun k => negb (String.eqb key k))) s.

Inductive Event : Type :=
| KeyDown (key : string)
| KeyUp (key : string)
| Start (now : Z)
| Frame (now : Z) (rnd : Random).

Definition handle (s : App) (e : Event) : App :=
  match e with
  | KeyDown k => handleKeyDown k s
  | KeyUp k => handleKeyUp k s
  | Start now => startGame now s
  | Frame now rnd => gameLoop now rnd s
  end.

Definition run (s : App) (es : list Event) : App := fold_left handle es s.

End Fixed.

(** The same event, delivered to the responsive game. *)
Definition responsive (e : Fixed.Event) : Event :=
  match e with
  | Fixed.KeyDown k => KeyDown k
  | Fixed.KeyUp k => KeyUp k
  | Fixed.Start now => Start now
  | Fixed.Frame now rnd => Frame now rnd
  end.

(** Equality of the numeric fields as numbers. *)
Definition objEquiv (a b : GameObject.t) : Prop :=
  GameObject.id a = GameObject.id b
  /\ GameObject.type a = GameObject.type b
  /\ GameObject.x a == GameObject.x b
  /\ GameObject.y a == GameObject.y b
  /\ GameObject.speed a == GameObject.speed b.

Definition plrEquiv (p q : Player.t) : Prop :=
  Player.x p == Player.x q /\ Player.y p == Player.y q
  /\ Player.width p == Player.width q /\ Player.height p == Player.height q.

Definition baseDims (d : GameDimensions.t) : Prop :=
  GameDimensions.width d == 800
  /\ GameDimensions.height d == 600
  /\ GameDimensions.playerSize d == 40
  /\ GameDimensions.objectSize d == 30
  /\ GameDimensions.playerSpeed d == 8.

(** The responsive game shows what the fixed-size game shows. *)
Record sim (f : Fixed.App) (s : App) : Prop := mkSim
  { sim_started : Fixed.gameStarted f = gameStarted s;
    sim_over : Fixed.gameOver f = gameOver s;
    sim_score : Fixed.score f = score s;
    sim_lives : Fixed.lives f = lives s;
    sim_player : plrEquiv (Fixed.player f) (player s);
    sim_objects : Forall2 objEquiv (Fixed.objects f) (objects s);
    sim_keys : Fixed.keys f = keys s;
    sim_id : Fixed.objectIdRef f = objectIdRef s;
    sim_last : Fixed.lastSpawnRef f = lastSpawnRef s;
    sim_dims : baseDims (dims s);
    sim_touch : touchDirection s = None }.

(** The keys that steer left and right. *)
Definition leftKey (k : string) : bool :=
  String.eqb k "ArrowLeft" || String.eqb k "a" || String.eqb k "A".

Definition rightKey (k : string) : bool :=
  String.eqb k "ArrowRight" || String.eqb k "d" || String.eqb k "D".

Definition leftKeyHeld (s : App) : bool := existsb leftKey (keys s).
Definition rightKeyHeld (s : App) : bool := existsb rightKey (keys s).

(** ** Binary64 reading of the numeric formulas

    The session model above computes over exact rationals, which is what
    the properties of the state machine need.  The properties that pin the
    numeric range of a spawned object or of the geometry depend on the
    rounding of JavaScript numbers, so the formulas concerned are read a
    second time here, with every arithmetic operation rounded to binary64:
    to the nearest value of 53 significant bits, ties to the even one.  The
    exponent is left unbounded; the program's values stay far from the
    overflow and underflow thresholds. *)

Module Binary64.

(** The nearest integer, ties to even. *)
Definition RNE (t : Q) : Z :=
  let f := Qfloor t in
  match Qcompare (t - inject_Z f) (1 # 2) with
  | Lt => f
  | Gt => (f + 1)%Z
  | Eq => if Z.even f then f else (f + 1)%Z
  end.

(** For [x > 0], the exponent [e] with [2^e <= x < 2^(e+1)]. *)
Definition binade (x : Q) : Z :=
  let k := (Z.log2 (Qnum x) - Z.log2 (Zpos (Qden x)))%Z in
  if Qle_bool (2 ^ k) x then k else (k - 1)%Z.

(** The spacing of the binary64 values around [x > 0]. *)
Definition ulp (x : Q) : Q := 2 ^ (binade x - 52).

Definition roundPos (x : Q) : Q := inject_Z (RNE (x / ulp x)) * ulp x.

(** The binary64 value nearest to [x]. *)
Definition round (x : Q) : Q :=
  match Qnum x with
  | Z0 => 0
  | Zpos _ => roundPos x
  | Zneg _ => - roundPos (- x)
  end.

(** The JavaScript operators [*], [+], [-], [/]. *)
Definition mul (a b : Q) : Q := round (a * b).
Definition add (a b : Q) : Q := round (a + b).
Definition sub (a b : Q) : Q := round (a - b).
Definition div (a b : Q) : Q := round (a / b).

(** The literals [0.35], [0.6] and [1.5] as the parser stores them. *)
Definition MIN_SCALE : Q := round 0.35.
Definition six_tenths : Q := round 0.6.
Definition one_and_a_half : Q := round 1.5.

(** [calculateDimensions]; the window size is a pair of integers. *)
Definition calculateScale (innerWidth innerHeight : Z) : Q :=
  let availableWidth := sub (inject_Z innerWidth) 16 in
  let availableHeight := mul (inject_Z innerHeight) six_tenths in
  let widthScale := div availableWidth BASE_WIDTH in
  let heightScale := div availableHeight BASE_HEIGHT in
  let rawScale := Qmin (Qmin widthScale heightScale) 1 in
  Qmax rawScale MIN_SCALE.

Definition calculateDimensions (innerWidth innerHeight : Z) : GameDimensions.t :=
  let availableWidth := sub (inject_Z innerWidth) 16 in
  let scale := calculateScale innerWidth innerHeight in
  let width :=
    Qmax MIN_WIDTH (Qmin (Math_floor (mul BASE_WIDTH scale)) availableWidth) in
  let height := Qmax MIN_HEIGHT (Math_floor (mul BASE_HEIGHT scale)) in
  let playerSize := Qmax 20 (Math_floor (mul BASE_PLAYER_SIZE scale)) in
  let objectSize := Qmax 16 (Math_floor (mul BASE_OBJECT_SIZE scale)) in
  let playerSpeed := Qmax 3 (mul BASE_PLAYER_SPEED scale) in
  {| GameDimensions.width := width;
     GameDimensions.height := height;
     GameDimensions.playerSize := playerSize;
     GameDimensions.objectSize := objectSize;
     GameDimensions.playerSpeed := playerSpeed;
     GameDimensions.fontSizeObject := Qmax 14 (Math_floor (mul 24 scale));
     GameDimensions.fontSizePlayer := Qmax 18 (Math_floor (mul 32 scale)) |}.

(** [types[Math.floor(Math.random() * types.length)]] *)
Definition typeIndex (r : Q) : Z :=
  Qfloor (mul r (inject_Z (Z.of_nat (List.length types)))).

Definition pickType (r : Q) : ObjType :=
  nth (Z.to_nat (typeIndex r)) types rock.

(** [type === 'rock' ? 3 + Math.random() * 2 : 2 + Math.random() * 1.5] *)
Definition baseSpeed (ty : ObjType) (r : Q) : Q :=
  if ObjType_eqb ty rock then add 3 (mul r 2) else add 2 (mul r one_and_a_half).

(** The object literal of [spawnObject]. *)
Definition newObject (rnd : Random) (s : App) : GameObject.t :=
  let type := pickType (rType rnd) in
  let currentDims := dims s in
  let baseSpeed := baseSpeed type (rSpeed rnd) in
  let scaledSpeed :=
    mul baseSpeed (div (GameDimensions.height currentDims) BASE_HEIGHT) in
  {| GameObject.id := objectIdRef s;
     GameObject.x :=
       mul (rX rnd)
           (sub (GameDimensions.width currentDims)
                (GameDimensions.objectSize currentDims));
     GameObject.y := - GameDimensions.objectSize currentDims;
     GameObject.speed := scaledSpeed;
     GameObject.type := type |}.

Definition spawnObject (rnd : Random) (s : App) : App :=
  let o := newObject rnd s in
  setObjects (fun prev => prev ++ [o]) (setObjectIdRef (objectIdRef s + 1) s).

(** The largest binary64 value below 1, the largest value [Math.random()]
    can return. *)
Definition belowOne : Q := 1 - (1 # 9007199254740992).

(** What the specification says of every derived value: the floor of the
    product, not below its minimum. *)
Definition floorClamp (base minimum scale : Q) : Q :=
  Qmax minimum (Math_floor (mul base scale)).

Definition floorClampedGeometry (d : GameDimensions.t) (scale : Q) : Prop :=
  GameDimensions.width d == floorClamp BASE_WIDTH MIN_WIDTH scale
  /\ GameDimensions.height d == floorClamp BASE_HEIGHT MIN_HEIGHT scale
  /\ GameDimensions.playerSize d == floorClamp BASE_PLAYER_SIZE 20 scale
  /\ GameDimensions.objectSize d == floorClamp BASE_OBJECT_SIZE 16 scale
  /\ GameDimensions.playerSpeed d == floorClamp BASE_PLAYER_SPEED 3 scale.


End Binary64.

(** ** The rounding against the primitive floats of the kernel *)

Module Kernel64.

(** A finite primitive float as a rational. *)
Definition toQ (f : PrimFloat.float) : option Q :=
  match FloatOps.Prim2SF f with
  | SpecFloat.S754_zero _ => Some 0
  | SpecFloat.S754_finite s m e =>
      Some ((if s then - (1) else 1) * inject_Z (Zpos m) * 2 ^ e)
  | _ => None
  end.

Definition same (f : PrimFloat.float) (q : Q) : bool :=
  match toQ f with
  | Some q' => Qeq_bool q' q
  | None => false
  end.

Definition ofZ (n : Z) : PrimFloat.float := PrimFloat.of_uint63 (Uint63.of_Z n).

(** Quotients [n / d] of small integers, and sums, differences and products
    of such quotients. *)
Definition grid : list (Z * Z) :=
  list_prod (map Z.of_nat (seq 0 40)) (map Z.of_nat (seq 1 40)).

Definition agree (p : Z * Z) : bool :=
  let (n, d) := p in
  let a := PrimFloat.div (ofZ n) (ofZ d) in
  let qa := Binary64.div (inject_Z n) (inject_Z d) in
  same a qa
  && same (PrimFloat.mul a a) (Binary64.mul qa qa)
  && same (PrimFloat.add a (ofZ d)) (Binary64.add qa (inject_Z d))
  && same (PrimFloat.sub a (PrimFloat.mul a a)) (Binary64.sub qa (Binary64.mul qa qa)).

(** [1 - 2^-52] and [1 - 2^-53] as primitive floats. *)
Definition belowOne52 : PrimFloat.float :=
  PrimFloat.div (ofZ 4503599627370495) (ofZ 4503599627370496).

Definition belowOne53 : PrimFloat.float :=
  PrimFloat.div (ofZ 9007199254740991) (ofZ 9007199254740992).

End Kernel64.

(** For every width from 0 to 799 the product [800 * (a / 800)], rounded
    twice, does not exceed [a] once floored. *)
Definition widthRows : list Z := map Z.of_nat (seq 0 800).

Definition widthRowOk (a : Z) : bool :=
  Qeq_bool (Binary64.round (inject_Z a)) (inject_Z a)
  && Qle_bool
       (Math_floor (Binary64.mul 800 (Binary64.div (Binary64.round (inject_Z a)) 800)))
       (inject_Z a).

(** A session in which a coin is collected: the frame at 1003 ms spawns a
    coin above the player with base speed 3, every other spawn is a coin at
    the left edge. *)
Definition coinAbovePlayer : Random := mkRandom (1 # 2) (2 # 3) (1 # 2).

Definition coinFrame (k : nat) : Event :=
  Frame (17 * Z.of_nat k)
        (match k with 59%nat => coinAbovePlayer | _ => coinAtTheEdge end).

Definition coinRun : list Event := Start 0 :: map coinFrame (seq 1 240).

(** * Properties *)

(** ** Arithmetic helpers *)

Lemma Qltb_lt (a b : Q) : Qltb a b = true <-> a < b.
Proof.
  unfold Qltb. rewrite negb_true_iff.
  split; intro H.
  - apply Qnot_le_lt. intro Hle. apply Qle_bool_iff in Hle. congruence.
  - destruct (Qle_bool b a) eqn:E; [|reflexivity].
    apply Qle_bool_iff in E. exfalso. apply (Qlt_not_le _ _ H E).
Qed.

Lemma Qltb_ge (a b : Q) : Qltb a b = false <-> b <= a.
Proof.
  unfold Qltb. rewrite negb_false_iff. apply Qle_bool_iff.
Qed.

(** Case analysis on every [Qmax] and [Qmin] of the goal: each is replaced
    by a fresh variable together with its defining alternative. *)
Ltac minmax_step :=
  match goal with
  | |- context [Qmax ?a ?b] =>
      let m := fresh "m" in
      pose proof (Q.max_spec a b); set (m := Qmax a b) in *; clearbody m
  | |- context [Qmin ?a ?b] =>
      let m := fresh "m" in
      pose proof (Q.min_spec a b); set (m := Qmin a b) in *; clearbody m
  | _ : context [Qmax ?a ?b] |- _ =>
      let m := fresh "m" in
      pose proof (Q.max_spec a b); set (m := Qmax a b) in *; clearbody m
  | _ : context [Qmin ?a ?b] |- _ =>
      let m := fresh "m" in
      pose proof (Q.min_spec a b); set (m := Qmin a b) in *; clearbody m
  end.

Ltac minmax :=
  cbv zeta; repeat minmax_step;
  repeat match goal with
  | H : _ /\ _ \/ _ /\ _ |- _ => destruct H as [[? ?]|[? ?]]
  end.

Lemma Math_floor_le (q : Q) : Math_floor q <= q.
Proof. apply Qfloor_le. Qed.

Lemma Math_floor_Z (z : Z) : Math_floor (inject_Z z) = inject_Z z.
Proof. unfold Math_floor. now rewrite Qfloor_Z. Qed.

#[global] Instance Math_floor_comp : Proper (Qeq ==> Qeq) Math_floor.
Proof.
  intros a b Hab. unfold Math_floor.
  assert (Qfloor a = Qfloor b) as ->; [|reflexivity].
  apply Z.le_antisymm; apply Qfloor_resp_le; rewrite Hab; apply Qle_refl.
Qed.

(** ** Dimension provider *)

Lemma calculateScale_bounds (w h : Q) :
  MIN_SCALE <= calculateScale w h <= 1.
Proof.
  unfold calculateScale, MIN_SCALE. minmax; lra.
Qed.

Lemma width_min_redundant (w h : Q) :
  GameDimensions.width (calculateDimensions w h)
  == floorClamp BASE_WIDTH MIN_WIDTH (calculateScale w h).
Proof.
  unfold calculateDimensions, floorClamp; cbn [GameDimensions.width].
  set (sc := calculateScale w h).
  destruct (Qlt_le_dec ((w - 16) / BASE_WIDTH) sc) as [Hlt|Hle].
  - (* the minimum scale is in force: the floor is exactly MIN_WIDTH *)
    assert (Hsc : sc == MIN_SCALE).
    { subst sc. revert Hlt. unfold calculateScale, MIN_SCALE, BASE_WIDTH, BASE_HEIGHT.
      minmax; intros; lra. }
    assert (Hfl : Math_floor (BASE_WIDTH * sc) == 280).
    { rewrite Hsc. reflexivity. }
    rewrite Hfl. unfold MIN_WIDTH.
    minmax; lra.
  - assert (Hfl : Math_floor (BASE_WIDTH * sc) <= w - 16).
    { eapply Qle_trans; [apply Math_floor_le|].
      unfold BASE_WIDTH in *.
      assert (H := Qmult_le_l ((w - 16) / 800) sc 800).
      assert (800 * ((w - 16) / 800) == w - 16) by (field).
      lra. }
    rewrite (Q.min_l _ _ Hfl). reflexivity.
Qed.

(** ** Entity spawner *)

Lemma typeIndex_eq (r : Q) : typeIndex r = Qfloor (r * 5).
Proof. reflexivity. Qed.

Lemma typeIndex_slot (r : Q) (k : Z) :
  typeIndex r = k <-> inject_Z k <= r * 5 < inject_Z (k + 1).
Proof.
  rewrite typeIndex_eq.
  split.
  - intros <-. split; [apply Qfloor_le | apply Qlt_floor].
  - intros [Hlo Hhi].
    assert (H1 := Qfloor_le (r * 5)). assert (H2 := Qlt_floor (r * 5)).
    assert (Ha : inject_Z (Qfloor (r * 5)) < inject_Z (k + 1)) by lra.
    assert (Hb : inject_Z k < inject_Z (Qfloor (r * 5) + 1)) by lra.
    rewrite <- Zlt_Qlt in Ha, Hb. lia.
Qed.

Lemma typeIndex_range (r : Q) :
  0 <= r < 1 -> (0 <= typeIndex r < 5)%Z.
Proof.
  intros [H0 H1]. rewrite typeIndex_eq.
  assert (Ha := Qfloor_le (r * 5)). assert (Hb := Qlt_floor (r * 5)).
  assert (Hlo : inject_Z 0 < inject_Z (Qfloor (r * 5) + 1)).
  { change (inject_Z 0) with 0. lra. }
  assert (Hhi : inject_Z (Qfloor (r * 5)) < inject_Z 5).
  { change (inject_Z 5) with 5. lra. }
  rewrite <- Zlt_Qlt in Hlo, Hhi. lia.
Qed.

(** Inside [0, 1) the table lookup never falls back on the default. *)
Lemma pickType_in_table (r : Q) :
  0 <= r < 1 -> nth_error types (Z.to_nat (typeIndex r)) = Some (pickType r).
Proof.
  intros H. apply typeIndex_range in H. unfold pickType.
  apply nth_error_nth'. cbn [types List.length]. lia.
Qed.

Lemma baseSpeed_rock (r : Q) : baseSpeed rock r = 3 + r * 2.
Proof. reflexivity. Qed.

Lemma baseSpeed_reward (ty : ObjType) (r : Q) :
  ty <> rock -> baseSpeed ty r = 2 + r * 1.5.
Proof. destruct ty; intros H; [congruence| reflexivity ..]. Qed.

(** ** Start and restart *)

(** C5: whatever the prior state, [startGame] leaves score 0, three lives,
    no objects, phase [Running], the geometry untouched and the player
    centred horizontally ([width / 2 - playerSize / 2]) at 20 above the
    bottom ([height - playerSize - 20]) for the current geometry. *)
Theorem C5_start_resets (now : Z) (s : App) :
  let s' := startGame now s in
  score s' = 0%Z
  /\ lives s' = 3%Z
  /\ objects s' = []
  /\ phase s' = Running
  /\ dims s' = dims s
  /\ player s' = centredPlayer (dims s)
  /\ Player.x (player s')
     = GameDimensions.width (dims s) / 2 - GameDimensions.playerSize (dims s) / 2
  /\ Player.y (player s')
     = GameDimensions.height (dims s) - GameDimensions.playerSize (dims s) - 20
  /\ Player.width (player s') = GameDimensions.playerSize (dims s)
  /\ Player.height (player s') = GameDimensions.playerSize (dims s)
  /\ lastSpawnRef s' = now.
Proof.
  repeat split.
Qed.

(** ** Collision outcomes *)

Lemma onCollision_frame (ty : ObjType) (s : App) :
  dims (onCollision ty s) = dims s
  /\ gameStarted (onCollision ty s) = gameStarted s
  /\ player (onCollision ty s) = player s
  /\ objects (onCollision ty s) = objects s
  /\ keys (onCollision ty s) = keys s
  /\ touchDirection (onCollision ty s) = touchDirection s
  /\ objectIdRef (onCollision ty s) = objectIdRef s
  /\ lastSpawnRef (onCollision ty s) = lastSpawnRef s.
Proof.
  destruct ty; cbn [onCollision]; try (repeat split; fail).
  destruct (lives s - 1 <=? 0)%Z; repeat split.
Qed.

Lemma onCollision_score (ty : ObjType) (s : App) :
  score (onCollision ty s) = (score s + reward ty)%Z.
Proof.
  destruct ty; cbn [onCollision reward]; try reflexivity.
  destruct (lives s - 1 <=? 0)%Z; cbn; lia.
Qed.

Lemma onCollision_lives (ty : ObjType) (s : App) :
  lives (onCollision ty s)
  = (lives s - (if ObjType_eqb ty rock then 1 else 0))%Z.
Proof.
  destruct ty; cbn; lia.
Qed.

Lemma onCollision_gameOver (ty : ObjType) (s : App) :
  gameOver (onCollision ty s)
  = gameOver s || (ObjType_eqb ty rock && (lives s - 1 <=? 0)%Z).
Proof.
  destruct ty; cbn [onCollision ObjType_eqb andb]; rewrite ?orb_false_r; try reflexivity.
  destruct (lives s - 1 <=? 0)%Z; cbn; [now rewrite orb_true_r | now rewrite orb_false_r].
Qed.

(** C4: a coin adds exactly 10 to the score, a star 25 and a gem 50, and
    none of them touches [lives] or the two phase flags; a coin, a star and
    a gem injected after a fresh start give a score of 85. *)
Theorem C4_rewards (now : Z) (s : App) :
  (score (onCollision coin s) = score s + 10
   /\ score (onCollision star s) = score s + 25
   /\ score (onCollision gem s) = score s + 50)%Z
  /\ (forall ty, ty <> rock ->
        lives (onCollision ty s) = lives s
        /\ gameStarted (onCollision ty s) = gameStarted s
        /\ gameOver (onCollision ty s) = gameOver s
        /\ phase (onCollision ty s) = phase s)
  /\ score (inject [coin; star; gem] (startGame now s)) = 85%Z
  /\ lives (inject [coin; star; gem] (startGame now s)) = 3%Z
  /\ phase (inject [coin; star; gem] (startGame now s)) = Running.
Proof.
  split; [repeat split|].
  split; [|repeat split].
  intros ty Hty. destruct ty; [congruence | repeat split ..].
Qed.

(** ** One frame, decomposed *)

Lemma inject_frame (tys : list ObjType) : forall s : App,
  dims (inject tys s) = dims s
  /\ gameStarted (inject tys s) = gameStarted s
  /\ player (inject tys s) = player s
  /\ objects (inject tys s) = objects s
  /\ keys (inject tys s) = keys s
  /\ touchDirection (inject tys s) = touchDirection s
  /\ objectIdRef (inject tys s) = objectIdRef s
  /\ lastSpawnRef (inject tys s) = lastSpawnRef s.
Proof.
  induction tys as [|ty tys IH]; intros s; [repeat split|].
  cbn [inject fold_left]. fold (inject tys (onCollision ty s)).
  destruct (IH (onCollision ty s)) as (a & b & c & d & e & f & g & h).
  destruct (onCollision_frame ty s) as (a' & b' & c' & d' & e' & f' & g' & h').
  repeat split; congruence.
Qed.

Lemma inject_score (tys : list ObjType) : forall s : App,
  score (inject tys s) = (score s + rewards tys)%Z.
Proof.
  induction tys as [|ty tys IH]; intros s; cbn [inject fold_left rewards fold_right].
  - lia.
  - fold (inject tys (onCollision ty s)). fold (rewards tys).
    rewrite IH, onCollision_score. lia.
Qed.

Lemma hazards_cons (ty : ObjType) (tys : list ObjType) :
  hazards (ty :: tys) = ((if ObjType_eqb ty rock then 1 else 0) + hazards tys)%Z.
Proof.
  unfold hazards. cbn [count_occ].
  destruct (ObjType_eq_dec ty rock) as [->|Hne].
  - cbn [ObjType_eqb]. lia.
  - destruct ty; [congruence | cbn [ObjType_eqb]; lia ..].
Qed.

Lemma hazards_nonneg (tys : list ObjType) : (0 <= hazards tys)%Z.
Proof. unfold hazards. lia. Qed.

Lemma inject_lives (tys : list ObjType) : forall s : App,
  lives (inject tys s) = (lives s - hazards tys)%Z.
Proof.
  induction tys as [|ty tys IH]; intros s.
  - cbn. lia.
  - cbn [inject fold_left]. fold (inject tys (onCollision ty s)).
    rewrite IH, onCollision_lives, hazards_cons. lia.
Qed.

(** The flag is raised by the first rock that leaves no life, so it is up
    after the frame exactly when a rock hit and no life is left. *)
Lemma inject_gameOver (tys : list ObjType) : forall s : App,
  gameOver (inject tys s)
  = gameOver s || ((0 <? hazards tys)%Z && (lives s - hazards tys <=? 0)%Z).
Proof.
  induction tys as [|ty tys IH]; intros s.
  - cbn. now rewrite orb_false_r.
  - cbn [inject fold_left]. fold (inject tys (onCollision ty s)).
    rewrite IH, onCollision_gameOver, onCollision_lives, hazards_cons.
    assert (Hn := hazards_nonneg tys).
    destruct (gameOver s); [reflexivity|]. cbn [orb].
    destruct (ObjType_eqb ty rock); cbn [andb orb].
    + destruct (Z.leb_spec (lives s - 1) 0), (Z.ltb_spec 0 (hazards tys)),
        (Z.leb_spec (lives s - 1 - hazards tys) 0),
        (Z.ltb_spec 0 (1 + hazards tys)),
        (Z.leb_spec (lives s - (1 + hazards tys)) 0);
        cbn [andb orb]; try reflexivity; lia.
    + now rewrite Z.sub_0_r.
Qed.

Lemma forEach_split (d : GameDimensions.t) (p : Player.t) (l : list GameObject.t) :
  forall (s : App) (remaining : list GameObject.t),
  fold_left (forEachBody d p) l (s, remaining)
  = (inject (map GameObject.type (filter (fun obj => checkCollision d obj p) l)) s,
     remaining ++ filter (fun obj => negb (checkCollision d obj p)) l).
Proof.
  induction l as [|obj l IH]; intros s remaining; cbn [fold_left filter map].
  - now rewrite app_nil_r.
  - cbn [forEachBody]. destruct (checkCollision d obj p); cbn [negb map].
    + rewrite IH. reflexivity.
    + rewrite IH, <- app_assoc. reflexivity.
Qed.

Lemma trySpawn_frame (now : Z) (rnd : Random) (s : App) :
  dims (trySpawn now rnd s) = dims s
  /\ gameStarted (trySpawn now rnd s) = gameStarted s
  /\ gameOver (trySpawn now rnd s) = gameOver s
  /\ score (trySpawn now rnd s) = score s
  /\ lives (trySpawn now rnd s) = lives s
  /\ player (trySpawn now rnd s) = player s
  /\ keys (trySpawn now rnd s) = keys s
  /\ touchDirection (trySpawn now rnd s) = touchDirection s.
Proof.
  unfold trySpawn. destruct (now - lastSpawnRef s >? 1000)%Z; repeat split.
Qed.

(** A frame of a running game: the spawn block, the player update, the
    outcomes of the colliding objects, and the surviving objects. *)
Lemma gameLoop_running (now : Z) (rnd : Random) (s : App) :
  gameStarted s = true -> gameOver s = false ->
  gameLoop now rnd s
  = setObjects (fun _ => frameRemaining now rnd s)
      (inject (frameOutcomes now rnd s)
         (setPlayer (fun _ => currentPlayer s) (trySpawn now rnd s))).
Proof.
  intros Hs Ho. unfold gameLoop. rewrite Hs, Ho. cbn [negb orb].
  destruct (trySpawn_frame now rnd s) as (_ & _ & _ & _ & _ & Hp & Hk & Ht).
  assert (HL : isMovingLeft (trySpawn now rnd s) = isMovingLeft s)
    by (unfold isMovingLeft; now rewrite Hk, Ht).
  assert (HR : isMovingRight (trySpawn now rnd s) = isMovingRight s)
    by (unfold isMovingRight; now rewrite Hk, Ht).
  rewrite HL, HR, Hp. fold (currentPlayer s).
  rewrite forEach_split. reflexivity.
Qed.

Lemma gameLoop_paused (now : Z) (rnd : Random) (s : App) :
  gameStarted s = false \/ gameOver s = true -> gameLoop now rnd s = s.
Proof.
  intros [H|H]; unfold gameLoop; rewrite H; [reflexivity|].
  now rewrite orb_true_r.
Qed.

(** What a running frame does to each cell of the state. *)
Lemma gameLoop_running_fields (now : Z) (rnd : Random) (s : App) :
  gameStarted s = true -> gameOver s = false ->
  let s' := gameLoop now rnd s in
  dims s' = dims s
  /\ gameStarted s' = true
  /\ gameOver s'
     = ((0 <? hazards (frameOutcomes now rnd s))%Z
        && (lives s - hazards (frameOutcomes now rnd s) <=? 0)%Z)
  /\ score s' = (score s + rewards (frameOutcomes now rnd s))%Z
  /\ lives s' = (lives s - hazards (frameOutcomes now rnd s))%Z
  /\ player s' = currentPlayer s
  /\ objects s' = frameRemaining now rnd s
  /\ keys s' = keys s
  /\ touchDirection s' = touchDirection s
  /\ objectIdRef s' = objectIdRef (trySpawn now rnd s)
  /\ lastSpawnRef s' = lastSpawnRef (trySpawn now rnd s).
Proof.
  intros Hs Ho s'. subst s'. rewrite (gameLoop_running _ _ _ Hs Ho).
  set (s1 := setPlayer (fun _ => currentPlayer s) (trySpawn now rnd s)).
  set (tys := frameOutcomes now rnd s).
  destruct (inject_frame tys s1) as (a & b & c & d & e & f & g & h).
  destruct (trySpawn_frame now rnd s) as (a' & b' & c' & d' & e' & f' & g' & h').
  assert (Hsc := inject_score tys s1).
  assert (Hli := inject_lives tys s1).
  assert (Hov := inject_gameOver tys s1).
  cbn [setObjects dims gameStarted gameOver score lives player objects keys
       touchDirection objectIdRef lastSpawnRef].
  subst s1. cbn [setPlayer dims gameStarted gameOver score lives player objects keys
       touchDirection objectIdRef lastSpawnRef] in *.
  rewrite c' in Hov. rewrite Ho in Hov. cbn [orb] in Hov.
  repeat split; congruence.
Qed.

(** ** Lives and the game-over flag *)

Lemma phase_GameOver (s : App) :
  phase s = GameOver <-> gameStarted s = true /\ gameOver s = true.
Proof.
  unfold phase. destruct (gameStarted s), (gameOver s); cbn; intuition congruence.
Qed.

Lemma phase_Running (s : App) :
  phase s = Running <-> gameStarted s = true /\ gameOver s = false.
Proof.
  unfold phase. destruct (gameStarted s), (gameOver s); cbn; intuition congruence.
Qed.

Lemma phase_NotStarted (s : App) :
  phase s = NotStarted <-> gameStarted s = false.
Proof.
  unfold phase. destruct (gameStarted s), (gameOver s); cbn; intuition congruence.
Qed.

Lemma livesInvariant_mount (w h : Q) : livesInvariant (mount w h).
Proof.
  repeat split; cbn; try lia; try discriminate.
Qed.

Lemma livesInvariant_gameLoop (now : Z) (rnd : Random) (s : App) :
  livesInvariant s -> livesInvariant (gameLoop now rnd s).
Proof.
  intros Hinv.
  destruct (gameStarted s) eqn:Es;
    [|rewrite gameLoop_paused by (now left); exact Hinv].
  destruct (gameOver s) eqn:Eo;
    [rewrite gameLoop_paused by (now right); exact Hinv|].
  destruct Hinv as (Hle & Hov & Hst). rewrite Eo in Hov.
  destruct (gameLoop_running_fields now rnd s Es Eo)
    as (_ & Hs' & Ho' & _ & Hl' & _).
  assert (Hn := hazards_nonneg (frameOutcomes now rnd s)).
  assert (0 < lives s)%Z.
  { destruct (Z.leb_spec (lives s) 0) as [Hc|]; [|assumption].
    apply Hov in Hc. discriminate. }
  unfold livesInvariant. rewrite Hs', Ho', Hl'.
  split; [lia|]. split; [split|reflexivity].
  - intros Hb. apply andb_prop in Hb as [_ Hb]. now apply Z.leb_le in Hb.
  - intros Hc. apply andb_true_intro. split; [apply Z.ltb_lt | apply Z.leb_le]; lia.
Qed.

Lemma livesInvariant_handle (s : App) (e : Event) :
  livesInvariant s -> livesInvariant (handle s e).
Proof.
  destruct e; cbn [handle]; try (intros H; exact H).
  - (* Resize *)
    unfold handleResize. cbn [setDimensions gameStarted].
    destruct (negb (gameStarted s)); intros H; exact H.
  - (* Start *)
    intros _. repeat split; cbn; try lia; try discriminate.
  - apply livesInvariant_gameLoop.
Qed.

Lemma run_app (s : App) (es es' : list Event) :
  run s (es ++ es') = run (run s es) es'.
Proof. apply fold_left_app. Qed.

Lemma run_invariant (P : App -> Prop) :
  (forall s e, P s -> P (handle s e)) ->
  forall es s, P s -> P (run s es).
Proof.
  intros Hstep es. induction es as [|e es IH]; intros s Hs; [exact Hs|].
  cbn [run fold_left]. apply IH, Hstep, Hs.
Qed.

Lemma reachable_livesInvariant (s : App) : reachable s -> livesInvariant s.
Proof.
  intros (w & h & es & ->).
  apply run_invariant; [apply livesInvariant_handle | apply livesInvariant_mount].
Qed.

Lemma reachable_handle (s : App) (e : Event) :
  reachable s -> reachable (handle s e).
Proof.
  intros (w & h & es & ->). exists w, h, (es ++ [e]).
  now rewrite run_app.
Qed.

(** C1, as stated, fails: [lives] is not clamped at 0.  In the session
    [doubleHit] one life is left after frame 356, the two rocks stand at
    y = 510 and y = 507.24 above the player (whose box starts at
    y + objectSize > 540), and frame 357 moves both into the box: each of
    them takes a life and [lives] ends at -1. *)
Lemma C1_lives_go_below_zero :
  let before := run (mount 816 1000) (Start 0 :: frames 1 356) in
  let after := run (mount 816 1000) doubleHit in
  after = handle before (frameNo 357)
  /\ lives before = 1%Z /\ phase before = Running
  /\ frameOutcomes (17 * 357) (rndAt 357) before = [rock; rock]
  /\ lives after = (-1)%Z /\ phase after = GameOver
  /\ ~ livesWithinBounds.
Proof.
  assert (Hl : lives (run (mount 816 1000) doubleHit) = (-1)%Z)
    by (vm_compute; reflexivity).
  split; [|split; [|split; [|split; [|split; [|split]]]]].
  - unfold doubleHit, frames. change 357%nat with (356 + 1)%nat at 1.
    rewrite seq_app, map_app.
    change (Start 0 :: map frameNo (seq 1 356) ++ map frameNo (seq (1 + 356) 1))
      with ((Start 0 :: map frameNo (seq 1 356)) ++ [frameNo 357]).
    now rewrite run_app.
  - vm_compute; reflexivity.
  - vm_compute; reflexivity.
  - vm_compute; reflexivity.
  - exact Hl.
  - vm_compute; reflexivity.
  - intros H.
    assert (Hr : reachable (run (mount 816 1000) doubleHit))
      by (exists 816, 1000, doubleHit; reflexivity).
    apply H in Hr. rewrite Hl in Hr. lia.
Qed.

(** C1 (amended): in every reachable state [lives] is an integer at most 3,
    and [lives <= 0] holds exactly in phase [GameOver].  A frame of a
    running game takes one life per colliding rock, without a clamp at 0
    (so [lives] is negative when the rocks of the last frame outnumber the
    lives left); the phase becomes [GameOver] in the very frame in which
    [lives] first reaches 0 or less and stays [Running] otherwise; once in
    [GameOver] a frame changes nothing, so the transition happens once. *)
Theorem C1_lives_and_game_over (s : App) (Hs : reachable s) :
  (lives s <= 3)%Z
  /\ ((lives s <= 0)%Z <-> phase s = GameOver)
  /\ forall now rnd,
       let s' := gameLoop now rnd s in
       (phase s = Running ->
          (0 < lives s)%Z
          /\ lives s' = (lives s - hazards (frameOutcomes now rnd s))%Z
          /\ ((lives s' <= 0)%Z -> phase s' = GameOver)
          /\ ((0 < lives s')%Z -> phase s' = Running))
       /\ (phase s = GameOver -> s' = s).
Proof.
  destruct (reachable_livesInvariant s Hs) as (Hle & Hov & Hst).
  split; [exact Hle|]. split.
  - rewrite phase_GameOver. split.
    + intros H. apply Hov in H. auto.
    + intros [_ H]. now apply Hov.
  - intros now rnd s'. split.
    + intros Hrun. apply phase_Running in Hrun as [Es Eo].
      assert (Hr' : reachable s') by (apply (reachable_handle s (Frame now rnd) Hs)).
      destruct (reachable_livesInvariant s' Hr') as (_ & Hov' & Hst').
      destruct (gameLoop_running_fields now rnd s Es Eo) as (_ & Hs' & _ & _ & Hl' & _).
      fold s' in Hs', Hl'.
      split; [|split; [exact Hl'|split]].
      * destruct (Z.leb_spec (lives s) 0) as [Hc|]; [|assumption].
        apply Hov in Hc. congruence.
      * intros Hc. apply phase_GameOver. split; [exact Hs' | now apply Hov'].
      * intros Hc. apply phase_Running. split; [exact Hs'|].
        destruct (gameOver s') eqn:E; [|reflexivity].
        assert (lives s' <= 0)%Z by (now apply Hov'). lia.
    + intros Hover. apply phase_GameOver in Hover as [_ Eo].
      apply gameLoop_paused. now right.
Qed.

Lemma C1_lives_and_game_over_witness :
  let s := run (mount 816 1000) doubleHit in
  (lives s <= 3)%Z /\ ((lives s <= 0)%Z <-> phase s = GameOver).
Proof.
  intros s.
  assert (Hs : reachable s) by (exists 816, 1000, doubleHit; reflexivity).
  destruct (C1_lives_and_game_over s Hs) as (H1 & H2 & _).
  exact (conj H1 H2).
Defined.

(** ** Spawn cadence *)

Lemma trySpawn_due (now : Z) (rnd : Random) (s : App) :
  (1000 < now - lastSpawnRef s)%Z ->
  objects (trySpawn now rnd s) = objects s ++ [newObject rnd s]
  /\ objectIdRef (trySpawn now rnd s) = (objectIdRef s + 1)%Z
  /\ lastSpawnRef (trySpawn now rnd s) = now.
Proof.
  intros H. unfold trySpawn.
  destruct (Z.gtb_spec (now - lastSpawnRef s) 1000); [|lia].
  repeat split.
Qed.

Lemma trySpawn_not_due (now : Z) (rnd : Random) (s : App) :
  (now - lastSpawnRef s <= 1000)%Z -> trySpawn now rnd s = s.
Proof.
  intros H. unfold trySpawn.
  destruct (Z.gtb_spec (now - lastSpawnRef s) 1000); [lia|reflexivity].
Qed.

Lemma spawnTimes_frame (now : Z) (rnd : Random) (s : App) :
  spawnTimes s [Frame now rnd]
  = if negb (gameStarted s) || gameOver s then []
    else if (now - lastSpawnRef s >? 1000)%Z then [now] else [].
Proof.
  cbn [spawnTimes handle]. rewrite app_nil_r.
  destruct (gameStarted s) eqn:Es; cbn [negb orb].
  - destruct (gameOver s) eqn:Eo.
    + rewrite gameLoop_paused by (now right). now rewrite Z.ltb_irrefl.
    + destruct (gameLoop_running_fields now rnd s Es Eo)
        as (_ & _ & _ & _ & _ & _ & _ & _ & _ & Hid & _).
      rewrite Hid.
      destruct (Z.gtb_spec (now - lastSpawnRef s) 1000) as [Hd|Hd].
      * destruct (trySpawn_due now rnd s Hd) as (_ & -> & _).
        destruct (Z.ltb_spec (objectIdRef s) (objectIdRef s + 1)); [reflexivity|lia].
      * rewrite trySpawn_not_due by exact Hd. now rewrite Z.ltb_irrefl.
  - rewrite gameLoop_paused by (now left). now rewrite Z.ltb_irrefl.
Qed.

Lemma lastSpawnRef_frame (now : Z) (rnd : Random) (s : App) :
  lastSpawnRef (gameLoop now rnd s)
  = if negb (gameStarted s) || gameOver s then lastSpawnRef s
    else if (now - lastSpawnRef s >? 1000)%Z then now else lastSpawnRef s.
Proof.
  destruct (gameStarted s) eqn:Es; cbn [negb orb].
  - destruct (gameOver s) eqn:Eo.
    + now rewrite gameLoop_paused by (now right).
    + destruct (gameLoop_running_fields now rnd s Es Eo)
        as (_ & _ & _ & _ & _ & _ & _ & _ & _ & _ & Hla).
      rewrite Hla.
      destruct (Z.gtb_spec (now - lastSpawnRef s) 1000) as [Hd|Hd].
      * now destruct (trySpawn_due now rnd s Hd) as (_ & _ & ->).
      * now rewrite trySpawn_not_due.
  - now rewrite gameLoop_paused by (now left).
Qed.

Lemma lastSpawnRef_input (s : App) (e : Event) :
  match e with
  | Start _ | Frame _ _ => True
  | _ => lastSpawnRef (handle s e) = lastSpawnRef s
  end.
Proof.
  destruct e; cbn [handle]; try exact I; try reflexivity.
  unfold handleResize. cbn [setDimensions gameStarted].
  destruct (negb (gameStarted s)); reflexivity.
Qed.

Lemma spawnTimes_gapped (es : list Event) : forall s : App,
  forallb (fun e => negb (isStart e)) es = true ->
  gapped (lastSpawnRef s) (spawnTimes s es).
Proof.
  induction es as [|e es IH]; intros s Hes; [exact I|].
  cbn [forallb] in Hes. apply andb_prop in Hes as [He Hes].
  specialize (IH (handle s e) Hes).
  assert (Hin := lastSpawnRef_input s e).
  destruct e; try discriminate He; cbn [spawnTimes app];
    try (rewrite <- Hin; exact IH).
  assert (Hf := spawnTimes_frame now rnd s).
  cbn [spawnTimes] in Hf. rewrite app_nil_r in Hf. rewrite Hf. clear Hf.
  cbn [handle] in *. rewrite lastSpawnRef_frame in IH.
  destruct (negb (gameStarted s) || gameOver s); [exact IH|].
  destruct (Z.gtb_spec (now - lastSpawnRef s) 1000) as [Hd|Hd]; [|exact IH].
  cbn [app gapped]. split; [lia | exact IH].
Qed.

Lemma gapped_pairs (ts : list Z) : forall last : Z,
  gapped last ts ->
  Forall (fun t => 1000 < t - last)%Z ts
  /\ ForallOrdPairs (fun t t' => 1000 < t' - t)%Z ts.
Proof.
  induction ts as [|t ts IH]; intros last H.
  - split; constructor.
  - destruct H as [Ht H]. destruct (IH t H) as [Hall Hpairs].
    split.
    + constructor; [exact Ht|].
      eapply Forall_impl; [|exact Hall]. cbn. intros; lia.
    + constructor; assumption.
Qed.

(** C3: the spawn block of a frame appends exactly one new object (and
    advances the id counter by one and records the clock) when
    [now - lastSpawnRef > 1000], and does nothing otherwise; a frame of a
    running game therefore spawns once or not at all, however far the clock
    has advanced.  For any clock readings, along any sequence of frames,
    input events and resizes of a session, each spawn is more than 1000 ms
    after the one before it, and any two spawns are more than 1000 ms
    apart. *)
Theorem C3_spawn_cadence (s : App) (es : list Event)
    (Hes : forallb (fun e => negb (isStart e)) es = true) :
  (forall now rnd,
      ((1000 < now - lastSpawnRef s)%Z ->
         objects (trySpawn now rnd s) = objects s ++ [newObject rnd s]
         /\ objectIdRef (trySpawn now rnd s) = (objectIdRef s + 1)%Z
         /\ lastSpawnRef (trySpawn now rnd s) = now)
      /\ ((now - lastSpawnRef s <= 1000)%Z -> trySpawn now rnd s = s)
      /\ (phase s = Running ->
            objectIdRef (gameLoop now rnd s) = objectIdRef (trySpawn now rnd s)
            /\ spawnTimes s [Frame now rnd]
               = if (now - lastSpawnRef s >? 1000)%Z then [now] else []))
  /\ gapped (lastSpawnRef s) (spawnTimes s es)
  /\ ForallOrdPairs (fun t t' => 1000 < t' - t)%Z (spawnTimes s es).
Proof.
  split; [|split].
  - intros now rnd. split; [apply trySpawn_due|]. split; [apply trySpawn_not_due|].
    intros Hrun. apply phase_Running in Hrun as [Es Eo].
    split.
    + now destruct (gameLoop_running_fields now rnd s Es Eo)
        as (_ & _ & _ & _ & _ & _ & _ & _ & _ & Hid & _).
    + rewrite spawnTimes_frame, Es, Eo. reflexivity.
  - now apply spawnTimes_gapped.
  - eapply gapped_pairs. apply spawnTimes_gapped, Hes.
Qed.

Lemma C3_spawn_cadence_witness :
  let s := startGame 0 (mount 816 1000) in
  gapped (lastSpawnRef s) (spawnTimes s (frames 1 120))
  /\ spawnTimes s (frames 1 120) = [1003; 2006]%Z.
Proof.
  intros s. split.
  - apply (C3_spawn_cadence s (frames 1 120)). vm_compute. reflexivity.
  - vm_compute. reflexivity.
Defined.

(** ** Game over *)

Lemma sameOutcome_refl (s : App) : sameOutcome s s.
Proof. repeat split. Qed.

Lemma sameOutcome_trans (a b c : App) :
  sameOutcome a b -> sameOutcome b c -> sameOutcome a c.
Proof.
  unfold sameOutcome. intros (? & ? & ? & ? & ? & ?) (? & ? & ? & ? & ? & ?).
  repeat split; congruence.
Qed.

Lemma paused_handle (s : App) (e : Event) :
  gameStarted s = true -> gameOver s = true -> isStart e = false ->
  sameOutcome s (handle s e).
Proof.
  intros Es Eo He. destruct e; try discriminate He; cbn [handle];
    try (repeat split; fail).
  - unfold handleResize. cbn [setDimensions gameStarted]. rewrite Es.
    repeat split.
  - rewrite gameLoop_paused by (now right). apply sameOutcome_refl.
Qed.

Lemma paused_run (es : list Event) : forall s : App,
  gameStarted s = true -> gameOver s = true ->
  forallb (fun e => negb (isStart e)) es = true ->
  sameOutcome s (run s es).
Proof.
  induction es as [|e es IH]; intros s Es Eo Hes; [apply sameOutcome_refl|].
  cbn [forallb] in Hes. apply andb_prop in Hes as [He Hes].
  apply negb_true_iff in He.
  assert (H := paused_handle s e Es Eo He).
  cbn [run fold_left]. fold (run (handle s e) es).
  eapply sameOutcome_trans; [exact H|].
  destruct H as (_ & _ & _ & _ & Es' & Eo').
  apply IH; congruence.
Qed.

(** C10: the step that ends the game (a rock taking the last life) changes
    [lives] and the over flag and nothing else: score, object list, player
    and geometry are as before the step.  In the frame in which the game
    ends, the score still grows by the rewards of all colliding objects, the
    object list is the list of all updated objects that do not collide, and
    the player is the moved player, exactly as in a frame that does not end
    the game.  From then on, until [startGame], no frame, input event or
    resize changes the score, the lives, the object list or the player. *)
Theorem C10_game_over_keeps_outcome (now : Z) (rnd : Random) (s : App)
    (Hrun : phase s = Running) :
  let s' := gameLoop now rnd s in
  let outcomes := frameOutcomes now rnd s in
  (forall t : App,
      score (onCollision rock t) = score t
      /\ objects (onCollision rock t) = objects t
      /\ player (onCollision rock t) = player t
      /\ dims (onCollision rock t) = dims t
      /\ gameStarted (onCollision rock t) = gameStarted t
      /\ lives (onCollision rock t) = (lives t - 1)%Z
      /\ gameOver (onCollision rock t) = gameOver t || (lives t - 1 <=? 0)%Z)
  /\ score s' = (score s + rewards outcomes)%Z
  /\ lives s' = (lives s - hazards outcomes)%Z
  /\ objects s' = frameRemaining now rnd s
  /\ player s' = currentPlayer s
  /\ (phase s' = GameOver
      <-> (0 < hazards outcomes)%Z /\ (lives s - hazards outcomes <= 0)%Z)
  /\ (phase s' = GameOver ->
      forall es, forallb (fun e => negb (isStart e)) es = true ->
        score (run s' es) = score s'
        /\ lives (run s' es) = lives s'
        /\ objects (run s' es) = objects s'
        /\ player (run s' es) = player s'
        /\ phase (run s' es) = GameOver).
Proof.
  intros s' outcomes.
  apply phase_Running in Hrun as [Es Eo].
  destruct (gameLoop_running_fields now rnd s Es Eo)
    as (_ & Hs' & Ho' & Hsc & Hl & Hp & Hob & _).
  fold s' in Hs', Ho', Hsc, Hl, Hp, Hob. fold outcomes in Ho', Hsc, Hl.
  split; [|split; [exact Hsc|split; [exact Hl|split; [exact Hob|split; [exact Hp|split]]]]].
  - intros t.
    destruct (onCollision_frame rock t) as (Hd & Hg & Hpl & Hobj & _).
    assert (Hsco := onCollision_score rock t). cbn [reward] in Hsco.
    assert (Hli := onCollision_lives rock t). cbn [ObjType_eqb] in Hli.
    assert (Hov := onCollision_gameOver rock t). cbn [ObjType_eqb andb] in Hov.
    repeat split; try assumption; lia.
  - rewrite phase_GameOver, Hs', Ho', andb_true_iff, Z.ltb_lt, Z.leb_le.
    intuition.
  - intros Hover es Hes. apply phase_GameOver in Hover as [Es' Eo'].
    destruct (paused_run es s' Es' Eo' Hes) as (a & b & c & d & e & f).
    repeat split; try assumption.
    apply phase_GameOver. split; congruence.
Qed.

Lemma C10_game_over_keeps_outcome_witness :
  let s := run (mount 816 1000) (Start 0 :: frames 1 356) in
  let s' := gameLoop (17 * 357) (rndAt 357) s in
  score s' = (score s + rewards (frameOutcomes (17 * 357) (rndAt 357) s))%Z
  /\ objects s' = frameRemaining (17 * 357) (rndAt 357) s
  /\ phase s' = GameOver.
Proof.
  intros s s'.
  assert (Hrun : phase s = Running) by (vm_compute; reflexivity).
  destruct (C10_game_over_keeps_outcome (17 * 357) (rndAt 357) s Hrun)
    as (_ & Hsc & _ & Hob & _ & _ & _).
  split; [exact Hsc|]. split; [exact Hob|].
  vm_compute. reflexivity.
Defined.

(** ** Resize during a session *)

(** C9, as stated, fails: the off-field test reads the height of the current
    geometry.  After 138 frames of the 60 Hz session two rocks are on the
    800 x 600 field, the first at y = 330.  Frame 139 keeps both; after a
    resize to a 296 x 350 window (field 280 x 210) the same frame drops the
    first rock, which is now below the field. *)
Lemma C9_resize_changes_removal :
  let s := run (mount 816 1000) (Start 0 :: frames 1 138) in
  let a := gameLoop (17 * 139) (rndAt 139) s in
  let b := gameLoop (17 * 139) (rndAt 139) (handleResize 296 350 s) in
  map GameObject.id (objects s) = [0; 1]%Z
  /\ GameDimensions.height (dims (handleResize 296 350 s)) == 210
  /\ map GameObject.id (objects a) = [0; 1]%Z
  /\ map GameObject.id (objects b) = [1]%Z
  /\ ~ geometrySwapTransparent.
Proof.
  intros s a b.
  assert (Ha : map GameObject.id (objects a) = [0; 1]%Z) by (vm_compute; reflexivity).
  assert (Hb : map GameObject.id (objects b) = [1]%Z) by (vm_compute; reflexivity).
  split; [vm_compute; reflexivity|].
  split; [vm_compute; reflexivity|].
  split; [exact Ha|]. split; [exact Hb|].
  intros H.
  assert (Hs : reachable s) by (exists 816, 1000, (Start 0 :: frames 1 138); reflexivity).
  assert (Hrun : phase s = Running) by (vm_compute; reflexivity).
  assert (Hdue : (17 * 139 - lastSpawnRef s <= 1000)%Z) by (vm_compute; discriminate).
  destruct (H s 296 350 (17 * 139)%Z (rndAt 139) Hs Hrun Hdue) as (Heq & _).
  fold a b in Heq. rewrite Heq in Hb. rewrite Ha in Hb. discriminate Hb.
Qed.

Lemma handleResize_fields (w h : Q) (s : App) :
  let s' := handleResize w h s in
  dims s' = calculateDimensions w h
  /\ gameStarted s' = gameStarted s
  /\ gameOver s' = gameOver s
  /\ score s' = score s
  /\ lives s' = lives s
  /\ objects s' = objects s
  /\ keys s' = keys s
  /\ touchDirection s' = touchDirection s
  /\ objectIdRef s' = objectIdRef s
  /\ lastSpawnRef s' = lastSpawnRef s
  /\ player s'
     = if gameStarted s then player s else centredPlayer (calculateDimensions w h).
Proof.
  intros s'. subst s'. unfold handleResize. cbn [setDimensions gameStarted].
  destruct (gameStarted s) eqn:E; cbn [negb]; repeat split; exact E.
Qed.

(** C9 (amended): a resize replaces the geometry and leaves the object list
    (ids, coordinates, speeds, categories) as it is, and in a started game
    the player record, the score and the lives too.  The per-frame update of
    an object adds its own speed to [y] and reads no geometry.  The frame
    after the resize uses the new geometry throughout: an updated object
    stays only if its [y] is below the new height, it collides according to
    the new object size, a newly spawned object is placed and scaled by the
    new geometry, and the player moves by the new speed within the new
    clamp bound. *)
Theorem C9_resize_and_objects (w h : Q) (now : Z) (rnd : Random) (s : App)
    (Hrun : phase s = Running) :
  let d := calculateDimensions w h in
  let s1 := handleResize w h s in
  let s2 := gameLoop now rnd s1 in
  let p := movePlayer d (isMovingLeft s) (isMovingRight s) (player s) in
  let onField :=
    filter (fun obj => Qltb (GameObject.y obj) (GameDimensions.height d))
           (map fall (objects (trySpawn now rnd s1))) in
  (objects s1 = objects s /\ player s1 = player s /\ score s1 = score s
   /\ lives s1 = lives s /\ phase s1 = Running /\ dims s1 = d)
  /\ (forall obj,
        GameObject.y (fall obj) = GameObject.y obj + GameObject.speed obj
        /\ GameObject.x (fall obj) = GameObject.x obj
        /\ GameObject.speed (fall obj) = GameObject.speed obj
        /\ GameObject.id (fall obj) = GameObject.id obj
        /\ GameObject.type (fall obj) = GameObject.type obj)
  /\ ((now - lastSpawnRef s <= 1000)%Z -> objects (trySpawn now rnd s1) = objects s)
  /\ ((1000 < now - lastSpawnRef s)%Z ->
        objects (trySpawn now rnd s1) = objects s ++ [newObject rnd s1]
        /\ GameObject.y (newObject rnd s1) = - GameDimensions.objectSize d
        /\ GameObject.x (newObject rnd s1)
           = rX rnd * (GameDimensions.width d - GameDimensions.objectSize d)
        /\ GameObject.speed (newObject rnd s1)
           = baseSpeed (pickType (rType rnd)) (rSpeed rnd)
             * (GameDimensions.height d / BASE_HEIGHT))
  /\ player s2 = p
  /\ objects s2 = filter (fun obj => negb (checkCollision d obj p)) onField
  /\ frameOutcomes now rnd s1
     = map GameObject.type (filter (fun obj => checkCollision d obj p) onField)
  /\ score s2 = (score s + rewards (frameOutcomes now rnd s1))%Z
  /\ lives s2 = (lives s - hazards (frameOutcomes now rnd s1))%Z.
Proof.
  intros d s1 s2 p onField.
  apply phase_Running in Hrun as [Es Eo].
  destruct (handleResize_fields w h s)
    as (Hd & Hgs & Hgo & Hsc & Hli & Hob & Hk & Ht & Hid & Hla & Hpl).
  fold s1 in Hd, Hgs, Hgo, Hsc, Hli, Hob, Hk, Ht, Hid, Hla, Hpl. fold d in Hd.
  rewrite Es in Hpl, Hgs. rewrite Eo in Hgo.
  assert (Hp : currentPlayer s1 = p).
  { unfold currentPlayer, isMovingLeft, isMovingRight. now rewrite Hd, Hk, Ht, Hpl. }
  destruct (gameLoop_running_fields now rnd s1 Hgs Hgo)
    as (_ & _ & _ & Hsc2 & Hli2 & Hp2 & Hob2 & _).
  fold s2 in Hsc2, Hli2, Hp2, Hob2.
  split; [|split; [|split; [|split; [|split; [|split; [|split; [|split]]]]]]].
  - repeat split; try assumption. apply phase_Running. now split.
  - intros obj. repeat split.
  - intros Hdue. rewrite trySpawn_not_due by (now rewrite Hla). exact Hob.
  - intros Hdue. rewrite <- Hla in Hdue.
    destruct (trySpawn_due now rnd s1 Hdue) as (Ho & _).
    rewrite Ho, Hob. unfold newObject. rewrite Hd. repeat split.
  - now rewrite Hp2.
  - rewrite Hob2. unfold frameRemaining, frameUpdated, updated.
    now rewrite Hp, Hd.
  - unfold frameOutcomes, frameHits, frameUpdated, updated.
    now rewrite Hp, Hd.
  - now rewrite Hsc2, Hsc.
  - now rewrite Hli2, Hli.
Qed.

Lemma C9_resize_and_objects_witness :
  let s := run (mount 816 1000) (Start 0 :: frames 1 138) in
  objects (handleResize 296 350 s) = objects s
  /\ player (gameLoop (17 * 139) (rndAt 139) (handleResize 296 350 s))
     = movePlayer (calculateDimensions 296 350) (isMovingLeft s) (isMovingRight s)
                  (player s).
Proof.
  intros s.
  assert (Hrun : phase s = Running) by (vm_compute; reflexivity).
  destruct (C9_resize_and_objects 296 350 (17 * 139) (rndAt 139) s Hrun)
    as ((Hob & _) & _ & _ & _ & Hp & _).
  exact (conj Hob Hp).
Defined.

(** ** Containment of the player *)

Lemma Math_floor_mono (a b : Q) : a <= b -> Math_floor a <= Math_floor b.
Proof.
  intros H. unfold Math_floor. rewrite <- Zle_Qle. now apply Qfloor_resp_le.
Qed.

Lemma calculateDimensions_playable (w h : Q) : playable (calculateDimensions w h).
Proof.
  assert (Hsc := calculateScale_bounds w h).
  assert (Hw := width_min_redundant w h).
  unfold playable, calculateDimensions in *.
  cbn [GameDimensions.width GameDimensions.playerSize GameDimensions.playerSpeed] in *.
  rewrite Hw. unfold floorClamp, MIN_WIDTH.
  assert (Hfl : Math_floor (BASE_PLAYER_SIZE * calculateScale w h) <= 40).
  { assert (H := Math_floor_mono (BASE_PLAYER_SIZE * calculateScale w h) 40).
    change (Math_floor 40) with 40 in H. apply H.
    unfold BASE_PLAYER_SIZE. lra. }
  split.
  - revert Hfl.
    generalize (Math_floor (BASE_WIDTH * calculateScale w h)).
    generalize (Math_floor (BASE_PLAYER_SIZE * calculateScale w h)).
    intros f g Hfl. minmax; lra.
  - eapply Qle_trans; [|apply Q.le_max_l]. lra.
Qed.

Lemma movePlayer_contained (d : GameDimensions.t) (l r : bool) (p : Player.t) :
  playable d ->
  0 <= Player.x p <= GameDimensions.width d - GameDimensions.playerSize d ->
  0 <= Player.x (movePlayer d l r p)
  <= GameDimensions.width d - GameDimensions.playerSize d.
Proof.
  intros [Hw Hv] Hx. unfold movePlayer. cbn [Player.x].
  destruct l, r; minmax; lra.
Qed.

(** Moving right clamps against the current bound, wherever the player was. *)
Lemma movePlayer_right_clamps (d : GameDimensions.t) (l : bool) (p : Player.t) :
  Player.x (movePlayer d l true p)
  <= GameDimensions.width d - GameDimensions.playerSize d.
Proof.
  unfold movePlayer. cbn [Player.x]. apply Q.le_min_l.
Qed.

Lemma centredPlayer_contained (d : GameDimensions.t) :
  playable d ->
  0 <= Player.x (centredPlayer d)
  <= GameDimensions.width d - GameDimensions.playerSize d.
Proof.
  intros [Hw _]. cbn [centredPlayer Player.x].
  generalize dependent (GameDimensions.width d).
  generalize (GameDimensions.playerSize d). intros p wd Hw.
  assert (wd / 2 == wd * (1 # 2)) by (field).
  assert (p / 2 == p * (1 # 2)) by (field).
  lra.
Qed.

Lemma reachable_playable (s : App) : reachable s -> playable (dims s).
Proof.
  intros (w & h & es & ->).
  apply (run_invariant (fun s => playable (dims s))).
  - intros s e Hs. destruct e; cbn [handle]; try exact Hs.
    + destruct (handleResize_fields innerWidth innerHeight s) as (-> & _).
      apply calculateDimensions_playable.
    + destruct (gameStarted s) eqn:Es; [destruct (gameOver s) eqn:Eo|].
      * now rewrite gameLoop_paused by (now right).
      * now destruct (gameLoop_running_fields now rnd s Es Eo) as (-> & _).
      * now rewrite gameLoop_paused by (now left).
  - apply calculateDimensions_playable.
Qed.

(** Every event other than a resize of a started game keeps the player
    inside the field. *)
Lemma contained_step (s : App) (e : Event) :
  reachable s -> playerContained s ->
  isResize e = false \/ gameStarted s = false ->
  playerContained (handle s e).
Proof.
  intros Hr Hc He. assert (Hd := reachable_playable s Hr).
  destruct e; cbn [handle]; try exact Hc.
  - destruct He as [He|He]; [discriminate He|].
    destruct (handleResize_fields innerWidth innerHeight s)
      as (Hdm & _ & _ & _ & _ & _ & _ & _ & _ & _ & Hp).
    unfold playerContained. rewrite Hp, Hdm, He.
    apply centredPlayer_contained, calculateDimensions_playable.
  - unfold playerContained. cbn. apply (centredPlayer_contained (dims s) Hd).
  - destruct (gameStarted s) eqn:Es; [destruct (gameOver s) eqn:Eo|].
    + now rewrite gameLoop_paused by (now right).
    + destruct (gameLoop_running_fields now rnd s Es Eo)
        as (Hdm & _ & _ & _ & _ & Hp & _).
      unfold playerContained. rewrite Hdm, Hp.
      apply movePlayer_contained; assumption.
    + now rewrite gameLoop_paused by (now left).
Qed.

(** C2: the code does not re-clamp the player after a resize.  On the
    800 x 600 field the player starts at x = 380; a resize of the running
    game to a 296 x 1000 window gives a 280 wide field with a 20 wide
    player, so the bound is 260.  The next frame leaves x at 380 when no
    direction is held and at 377 when left is held; only a frame with right
    held clamps x to 260.  Hence containment does not hold in every
    reachable state. *)
Theorem C2_resize_leaves_player_outside :
  let s := run (mount 816 1000) [Start 0; Resize 296 1000] in
  let bound :=
    GameDimensions.width (dims s) - GameDimensions.playerSize (dims s) in
  phase s = Running
  /\ bound == 260
  /\ Player.x (player (run s [Frame 17 coinAtTheEdge])) == 380
  /\ Player.x (player (run s [KeyDown "ArrowLeft"; Frame 17 coinAtTheEdge])) == 377
  /\ Player.x (player (run s [KeyDown "ArrowRight"; Frame 17 coinAtTheEdge])) == 260
  /\ ~ playerContained (run s [Frame 17 coinAtTheEdge])
  /\ ~ (forall s', reachable s' -> playerContained s').
Proof.
  intros s bound.
  assert (Hout : ~ playerContained (run s [Frame 17 coinAtTheEdge])).
  { intros [_ H]. revert H. vm_compute. intros H. now apply H. }
  do 5 (split; [vm_compute; reflexivity|]).
  split; [exact Hout|].
  intros H. apply Hout, H.
  exists 816, 1000, ([Start 0; Resize 296 1000] ++ [Frame 17 coinAtTheEdge]).
  subst s. now rewrite run_app.
Qed.

(** ** Worked frames *)

(** One frame in which a coin, a star and a gem reach the player. *)
Example frame_collects_85 :
  let s := staged 3 [overPlayer 0 coin; overPlayer 1 star; overPlayer 2 gem] in
  let s' := gameLoop 17 coinAtTheEdge s in
  score s' = 85%Z /\ lives s' = 3%Z /\ objects s' = [] /\ phase s' = Running.
Proof. vm_compute. repeat split. Qed.

(** The last life is lost to a rock that is handled before a gem of the
    same frame: the gem still scores. *)
Example last_frame_still_scores :
  let s := staged 1 [overPlayer 0 rock; overPlayer 1 gem] in
  let s' := gameLoop 17 coinAtTheEdge s in
  score s' = 50%Z /\ lives s' = 0%Z /\ objects s' = [] /\ phase s' = GameOver
  /\ gameLoop 34 coinAtTheEdge s' = s'.
Proof. vm_compute. repeat split. Qed.

(** * Further properties of the code *)

(** ** Geometry: bounds, monotonicity, extreme windows *)

Lemma isInteger_floor (q : Q) : isInteger (Math_floor q).
Proof. exists (Qfloor q). reflexivity. Qed.

Lemma isInteger_max (a b : Q) : isInteger a -> isInteger b -> isInteger (Qmax a b).
Proof.
  intros [n Hn] [m Hm].
  destruct (Q.max_spec a b) as [[_ H]|[_ H]]; [exists m | exists n]; now rewrite H.
Qed.

Lemma floor_scaled (base sc : Q) :
  0 <= base -> 0 <= sc <= 1 -> isInteger base ->
  0 <= Math_floor (base * sc) <= base.
Proof.
  intros Hb [H0 H1] [n Hn].
  assert (Hlo : Math_floor 0 <= Math_floor (base * sc)).
  { apply Math_floor_mono. apply Qmult_le_0_compat; assumption. }
  assert (Hhi : Math_floor (base * sc) <= Math_floor base).
  { apply Math_floor_mono.
    assert (H := Qmult_le_l sc 1 base).
    destruct (Qlt_le_dec 0 base) as [Hpos|Hz].
    - apply H in Hpos. apply Hpos in H1. lra.
    - assert (base == 0) by lra.
      assert (base * sc == 0) by (rewrite H2; ring). lra. }
  assert (Hfb : Math_floor base == base).
  { rewrite Hn at 1. rewrite Math_floor_Z. now rewrite Hn. }
  change (Math_floor 0) with 0 in Hlo. lra.
Qed.

Ltac integer_literal :=
  match goal with
  | |- isInteger (?n # 1) => exists n; reflexivity
  end.

(** Every derived value lies between its minimum and its base. *)
Lemma calculateDimensions_bounds (w h : Q) :
  let d := calculateDimensions w h in
  GameDimensions.width d <= 800
  /\ GameDimensions.height d <= 600
  /\ GameDimensions.playerSize d <= 40
  /\ GameDimensions.objectSize d <= 30
  /\ GameDimensions.playerSpeed d <= 8
  /\ 14 <= GameDimensions.fontSizeObject d <= 24
  /\ 18 <= GameDimensions.fontSizePlayer d <= 32
  /\ 8 <= groundHeight d <= 12
  /\ isInteger (GameDimensions.width d)
  /\ isInteger (GameDimensions.height d)
  /\ isInteger (GameDimensions.playerSize d)
  /\ isInteger (GameDimensions.objectSize d).
Proof.
  intros d.
  assert (Hsc := calculateScale_bounds w h). unfold MIN_SCALE in Hsc.
  assert (Hsc' : 0 <= calculateScale w h <= 1) by lra.
  assert (Hw := width_min_redundant w h). fold d in Hw. unfold floorClamp in Hw.
  assert (F800 := floor_scaled 800 _ ltac:(lra) Hsc' ltac:(integer_literal)).
  assert (F600 := floor_scaled 600 _ ltac:(lra) Hsc' ltac:(integer_literal)).
  assert (F40 := floor_scaled 40 _ ltac:(lra) Hsc' ltac:(integer_literal)).
  assert (F30 := floor_scaled 30 _ ltac:(lra) Hsc' ltac:(integer_literal)).
  assert (F24 := floor_scaled 24 _ ltac:(lra) Hsc' ltac:(integer_literal)).
  assert (F32 := floor_scaled 32 _ ltac:(lra) Hsc' ltac:(integer_literal)).
  assert (Hh : 200 <= GameDimensions.height d <= 600).
  { subst d. unfold calculateDimensions. cbn [GameDimensions.height].
    unfold MIN_HEIGHT, BASE_HEIGHT.
    revert F600. generalize (Math_floor (600 * calculateScale w h)).
    intros f Hf. minmax; lra. }
  assert (Hg : 0 <= GameDimensions.height d / BASE_HEIGHT <= 1).
  { unfold BASE_HEIGHT.
    assert (E : GameDimensions.height d / 600 == GameDimensions.height d * (1 # 600))
      by field.
    rewrite E. lra. }
  assert (F12 := floor_scaled 12 _ ltac:(lra) Hg ltac:(integer_literal)).
  split; [rewrite Hw; unfold MIN_WIDTH, BASE_WIDTH; revert F800;
          generalize (Math_floor (800 * calculateScale w h));
          intros f Hf; minmax; lra|].
  split; [lra|].
  subst d. unfold calculateDimensions, groundHeight.
  cbn [GameDimensions.height GameDimensions.playerSize GameDimensions.objectSize
       GameDimensions.playerSpeed GameDimensions.fontSizeObject
       GameDimensions.fontSizePlayer GameDimensions.width].
  unfold BASE_PLAYER_SIZE, BASE_OBJECT_SIZE, BASE_PLAYER_SPEED, BASE_HEIGHT,
    BASE_WIDTH, MIN_HEIGHT, MIN_WIDTH in *.
  split; [revert F40; generalize (Math_floor (40 * calculateScale w h));
          intros f Hf; minmax; lra|].
  split; [revert F30; generalize (Math_floor (30 * calculateScale w h));
          intros f Hf; minmax; lra|].
  split; [minmax; lra|].
  split; [revert F24; generalize (Math_floor (24 * calculateScale w h));
          intros f Hf; minmax; lra|].
  split; [revert F32; generalize (Math_floor (32 * calculateScale w h));
          intros f Hf; minmax; lra|].
  split.
  { cbn [GameDimensions.height calculateDimensions] in F12.
    unfold MIN_HEIGHT, BASE_HEIGHT in F12. revert F12.
    generalize (Math_floor
      (12 * (Qmax 200 (Math_floor (600 * calculateScale w h)) / 600))).
    intros f Hf. minmax; lra. }
  split.
  { destruct (isInteger_max 280 (Math_floor (800 * calculateScale w h)))
      as [n Hn]; [exists 280%Z; reflexivity | apply isInteger_floor |].
    exists n. now rewrite Hw. }
  repeat split; apply isInteger_max; try apply isInteger_floor.
  - exists 200%Z; reflexivity.
  - exists 20%Z; reflexivity.
  - exists 16%Z; reflexivity.
Qed.

(** X1: whatever the window, no derived value exceeds its base: the field is
    at most 800 x 600, the player at most 40, an object at most 30, the
    speed at most 8, the two font sizes lie in [14, 24] and [18, 32] and the
    ground strip in [8, 12]; the four sizes are whole numbers. *)
Theorem dimensions_never_exceed_base (w h : Q) :
  let d := calculateDimensions w h in
  GameDimensions.width d <= 800
  /\ GameDimensions.height d <= 600
  /\ GameDimensions.playerSize d <= 40
  /\ GameDimensions.objectSize d <= 30
  /\ GameDimensions.playerSpeed d <= 8
  /\ 14 <= GameDimensions.fontSizeObject d <= 24
  /\ 18 <= GameDimensions.fontSizePlayer d <= 32
  /\ 8 <= groundHeight d <= 12
  /\ isInteger (GameDimensions.width d)
  /\ isInteger (GameDimensions.height d)
  /\ isInteger (GameDimensions.playerSize d)
  /\ isInteger (GameDimensions.objectSize d).
Proof. apply calculateDimensions_bounds. Qed.

Lemma Qdiv_as_mult (a : Q) (n : positive) :
  a / (Zpos n # 1) == a * (1 # n).
Proof. unfold Qdiv. change (/ (Zpos n # 1)) with (1 # n). reflexivity. Qed.

Lemma calculateScale_unfold (w h : Q) :
  calculateScale w h
  = Qmax (Qmin (Qmin ((w - 16) / 800) (h * 0.6 / 600)) 1) 0.35.
Proof. reflexivity. Qed.

Lemma calculateScale_large (w h : Q) :
  816 <= w -> 1000 <= h -> calculateScale w h == 1.
Proof.
  intros Hw Hh. rewrite calculateScale_unfold.
  assert (E1 := Qdiv_as_mult (w - 16) 800). assert (E2 := Qdiv_as_mult (h * 0.6) 600).
  revert E1 E2. generalize ((w - 16) / 800) (h * 0.6 / 600). intros a b E1 E2.
  minmax; lra.
Qed.

Lemma calculateScale_small (w h : Q) :
  w <= 296 \/ h <= 350 -> calculateScale w h == 0.35.
Proof.
  intros Hs. rewrite calculateScale_unfold.
  assert (E1 := Qdiv_as_mult (w - 16) 800). assert (E2 := Qdiv_as_mult (h * 0.6) 600).
  revert E1 E2. generalize ((w - 16) / 800) (h * 0.6 / 600). intros a b E1 E2.
  destruct Hs; minmax; lra.
Qed.

Lemma calculateScale_mono (w h w' h' : Q) :
  w <= w' -> h <= h' -> calculateScale w h <= calculateScale w' h'.
Proof.
  intros Hw Hh. rewrite !calculateScale_unfold.
  assert (E1 := Qdiv_as_mult (w - 16) 800). assert (E2 := Qdiv_as_mult (h * 0.6) 600).
  assert (E3 := Qdiv_as_mult (w' - 16) 800). assert (E4 := Qdiv_as_mult (h' * 0.6) 600).
  revert E1 E2 E3 E4.
  generalize ((w - 16) / 800) (h * 0.6 / 600) ((w' - 16) / 800) (h' * 0.6 / 600).
  intros a b a' b' E1 E2 E3 E4.
  minmax; lra.
Qed.

(** The geometry as a function of the scale alone. *)
Lemma dimensions_of_scale (w h : Q) :
  let d := calculateDimensions w h in
  let sc := calculateScale w h in
  GameDimensions.width d == Qmax 280 (Math_floor (800 * sc))
  /\ GameDimensions.height d = Qmax 200 (Math_floor (600 * sc))
  /\ GameDimensions.playerSize d = Qmax 20 (Math_floor (40 * sc))
  /\ GameDimensions.objectSize d = Qmax 16 (Math_floor (30 * sc))
  /\ GameDimensions.playerSpeed d = Qmax 3 (8 * sc).
Proof.
  split; [apply width_min_redundant | repeat split].
Qed.

Lemma floorMax_at (m base sc v : Q) :
  sc == v -> Qmax m (Math_floor (base * sc)) == Qmax m (Math_floor (base * v)).
Proof.
  intros E. assert (H : Math_floor (base * sc) == Math_floor (base * v))
    by (now rewrite E).
  revert H. generalize (Math_floor (base * sc)) (Math_floor (base * v)).
  intros a b H. minmax; lra.
Qed.

Lemma floorMax_mono (m base sc sc' : Q) :
  0 <= base -> sc <= sc' ->
  Qmax m (Math_floor (base * sc)) <= Qmax m (Math_floor (base * sc')).
Proof.
  intros Hb Hs.
  assert (H : Math_floor (base * sc) <= Math_floor (base * sc')).
  { apply Math_floor_mono.
    destruct (Qlt_le_dec 0 base) as [Hpos|Hz].
    - now apply Qmult_le_l.
    - assert (E : base == 0) by lra. rewrite E. lra. }
  revert H. generalize (Math_floor (base * sc)) (Math_floor (base * sc')).
  intros a b H. minmax; lra.
Qed.

(** X2: a window of at least 816 x 1000 gets scale 1 and exactly the base
    geometry of the fixed-size game: field 800 x 600, player 40, objects 30,
    speed 8. *)
Theorem large_window_gives_base_geometry (w h : Q) (Hw : 816 <= w) (Hh : 1000 <= h) :
  let d := calculateDimensions w h in
  calculateScale w h == 1
  /\ GameDimensions.width d == GameDimensions.width fixedDims
  /\ GameDimensions.height d == GameDimensions.height fixedDims
  /\ GameDimensions.playerSize d == GameDimensions.playerSize fixedDims
  /\ GameDimensions.objectSize d == GameDimensions.objectSize fixedDims
  /\ GameDimensions.playerSpeed d == GameDimensions.playerSpeed fixedDims.
Proof.
  intros d. assert (E := calculateScale_large w h Hw Hh).
  destruct (dimensions_of_scale w h) as (H1 & H2 & H3 & H4 & H5).
  fold d in H1, H2, H3, H4, H5.
  split; [exact E|].
  rewrite H1, H2, H3, H4, H5.
  rewrite !(floorMax_at _ _ _ 1 E).
  repeat split; try reflexivity.
  cbn [fixedDims GameDimensions.playerSpeed].
  revert E. generalize (calculateScale w h). intros sc E. minmax; lra.
Qed.

Lemma large_window_gives_base_geometry_witness :
  calculateScale 1920 1080 == 1
  /\ GameDimensions.width (calculateDimensions 1920 1080) == 800.
Proof.
  assert (Hw : 816 <= 1920) by (vm_compute; discriminate).
  assert (Hh : 1000 <= 1080) by (vm_compute; discriminate).
  destruct (large_window_gives_base_geometry 1920 1080 Hw Hh) as (H1 & H2 & _).
  exact (conj H1 H2).
Defined.

(** X3: a window at most 296 wide or at most 350 high, degenerate sizes
    (zero, negative) included, gets the minimum scale 0.35 and the smallest
    geometry: field 280 x 210, player 20, objects 16, speed 3.  When the
    window is narrower than 296 the field is wider than the available
    width [innerWidth - 16]. *)
Theorem small_window_gives_minimum_geometry (w h : Q) (Hs : w <= 296 \/ h <= 350) :
  let d := calculateDimensions w h in
  calculateScale w h == 0.35
  /\ GameDimensions.width d == 280
  /\ GameDimensions.height d == 210
  /\ GameDimensions.playerSize d == 20
  /\ GameDimensions.objectSize d == 16
  /\ GameDimensions.playerSpeed d == 3
  /\ (w < 296 -> w - 16 < GameDimensions.width d).
Proof.
  intros d. assert (E := calculateScale_small w h Hs).
  destruct (dimensions_of_scale w h) as (H1 & H2 & H3 & H4 & H5).
  fold d in H1, H2, H3, H4, H5.
  assert (Hwd : GameDimensions.width d == 280).
  { rewrite H1, (floorMax_at _ _ _ 0.35 E). reflexivity. }
  split; [exact E|]. split; [exact Hwd|].
  rewrite H2, H3, H4, H5.
  rewrite !(floorMax_at _ _ _ 0.35 E).
  repeat split; try reflexivity.
  - revert E. generalize (calculateScale w h). intros sc E. minmax; lra.
  - intros Hlt. rewrite Hwd. lra.
Qed.

Lemma small_window_gives_minimum_geometry_witness :
  GameDimensions.width (calculateDimensions 0 0) == 280
  /\ GameDimensions.height (calculateDimensions 0 0) == 210
  /\ 0 - 16 < GameDimensions.width (calculateDimensions 0 0).
Proof.
  assert (Hs : 0 <= 296 \/ 0 <= 350) by (left; vm_compute; discriminate).
  destruct (small_window_gives_minimum_geometry 0 0 Hs) as (_ & H1 & H2 & _ & _ & _ & H3).
  split; [exact H1|]. split; [exact H2|].
  apply H3. vm_compute. reflexivity.
Defined.

(** X4: the geometry grows with the window: a window that is at least as
    wide and at least as high yields a scale, a field, a player, an object
    size and a speed that are at least as large. *)
Theorem dimensions_monotone (w h w' h' : Q) (Hw : w <= w') (Hh : h <= h') :
  let d := calculateDimensions w h in
  let d' := calculateDimensions w' h' in
  calculateScale w h <= calculateScale w' h'
  /\ GameDimensions.width d <= GameDimensions.width d'
  /\ GameDimensions.height d <= GameDimensions.height d'
  /\ GameDimensions.playerSize d <= GameDimensions.playerSize d'
  /\ GameDimensions.objectSize d <= GameDimensions.objectSize d'
  /\ GameDimensions.playerSpeed d <= GameDimensions.playerSpeed d'.
Proof.
  intros d d'. assert (Hm := calculateScale_mono w h w' h' Hw Hh).
  destruct (dimensions_of_scale w h) as (H1 & H2 & H3 & H4 & H5).
  destruct (dimensions_of_scale w' h') as (H1' & H2' & H3' & H4' & H5').
  fold d in H1, H2, H3, H4, H5. fold d' in H1', H2', H3', H4', H5'.
  split; [exact Hm|].
  rewrite H1, H1', H2, H2', H3, H3', H4, H4', H5, H5'.
  repeat split; try (apply floorMax_mono; [lra | exact Hm]).
  revert Hm. generalize (calculateScale w h) (calculateScale w' h').
  intros a b Hm. minmax; lra.
Qed.

Lemma dimensions_monotone_witness :
  GameDimensions.width (calculateDimensions 400 700)
  <= GameDimensions.width (calculateDimensions 500 900).
Proof.
  assert (Hw : 400 <= 500) by (vm_compute; discriminate).
  assert (Hh : 700 <= 900) by (vm_compute; discriminate).
  destruct (dimensions_monotone 400 700 500 900 Hw Hh) as (_ & H & _).
  exact H.
Defined.

(** ** Session invariants *)

Lemma boxed_calculateDimensions (w h : Q) : boxed (calculateDimensions w h).
Proof.
  destruct (calculateDimensions_bounds w h)
    as (Hw & Hh & Hp & Ho & Hv & _).
  unfold boxed, calculateDimensions in *.
  cbn [GameDimensions.width GameDimensions.height GameDimensions.playerSize
       GameDimensions.objectSize GameDimensions.playerSpeed] in *.
  repeat split; try assumption; apply Q.le_max_l.
Qed.

Lemma dims_handle (s : App) (e : Event) :
  dims (handle s e) = dims s
  \/ exists w h, e = Resize w h /\ dims (handle s e) = calculateDimensions w h.
Proof.
  destruct e; cbn [handle]; try (left; reflexivity).
  - right. exists innerWidth, innerHeight. split; [reflexivity|].
    now destruct (handleResize_fields innerWidth innerHeight s) as (-> & _).
  - left. destruct (gameStarted s) eqn:Es; [destruct (gameOver s) eqn:Eo|].
    + now rewrite gameLoop_paused by (now right).
    + now destruct (gameLoop_running_fields now rnd s Es Eo) as (-> & _).
    + now rewrite gameLoop_paused by (now left).
Qed.

Lemma reachable_boxed (s : App) : reachable s -> boxed (dims s).
Proof.
  intros (w & h & es & ->).
  apply (run_invariant (fun s => boxed (dims s))).
  - intros s e Hs. destruct (dims_handle s e) as [->|(w' & h' & _ & ->)];
      [exact Hs | apply boxed_calculateDimensions].
  - apply boxed_calculateDimensions.
Qed.

Lemma gameStarted_handle (s : App) (e : Event) :
  gameStarted (handle s e) = gameStarted s || isStart e.
Proof.
  destruct e; cbn [handle isStart]; rewrite ?orb_false_r; try reflexivity.
  - now destruct (handleResize_fields innerWidth innerHeight s) as (_ & -> & _).
  - cbn. now rewrite orb_true_r.
  - destruct (gameStarted s) eqn:Es; [destruct (gameOver s) eqn:Eo|].
    + now rewrite gameLoop_paused by (now right).
    + now destruct (gameLoop_running_fields now rnd s Es Eo) as (_ & -> & _).
    + now rewrite gameLoop_paused by (now left).
Qed.

Lemma fresh_handle (s : App) (e : Event) :
  (gameStarted s = false -> fresh s) ->
  gameStarted (handle s e) = false -> fresh (handle s e).
Proof.
  intros Hinv Hs'. rewrite gameStarted_handle in Hs'.
  apply orb_false_elim in Hs' as [Es He].
  specialize (Hinv Es).
  destruct e; try discriminate He; cbn [handle]; try exact Hinv.
  - destruct (handleResize_fields innerWidth innerHeight s)
      as (Hd & Hgs & Hgo & Hsc & Hli & Hob & _ & _ & Hid & Hla & Hp).
    destruct Hinv as (a & b & c & d & e & f & g).
    unfold fresh. rewrite Hd, Hgo, Hsc, Hli, Hob, Hid, Hla, Hp, Es.
    repeat split; assumption.
  - now rewrite gameLoop_paused by (now left).
Qed.

Lemma not_started_fresh_player (s : App) :
  reachable s -> gameStarted s = false -> player s = centredPlayer (dims s).
Proof.
  intros (w & h & es & ->).
  assert (H : gameStarted (run (mount w h) es) = false -> fresh (run (mount w h) es)).
  { apply (run_invariant (fun s => gameStarted s = false -> fresh s)).
    - intros s e. apply fresh_handle.
    - intros _. repeat split. }
  intros Hs. now destruct (H Hs) as (_ & _ & _ & _ & Hp & _).
Qed.

(** X5: until the game is started for the first time nothing accumulates:
    whatever resizes, key, touch and frame events arrive, the score is 0,
    there are three lives and no objects, both refs are still 0, and the
    player stands centred for the geometry of the current window. *)
Theorem not_started_is_fresh (s : App) (Hr : reachable s)
    (Hs : gameStarted s = false) :
  fresh s.
Proof.
  revert Hs. destruct Hr as (w & h & es & ->).
  apply (run_invariant (fun s => gameStarted s = false -> fresh s)).
  - intros s e. apply fresh_handle.
  - intros _. repeat split.
Qed.

Lemma not_started_is_fresh_witness :
  let s := run (mount 816 1000)
               [KeyDown "a"; Frame 5000 coinAtTheEdge; Resize 400 1000; TouchStart left] in
  player s = centredPlayer (dims s) /\ objects s = [].
Proof.
  intros s.
  assert (Hr : reachable s) by (eexists _, _, _; reflexivity).
  assert (Hs : gameStarted s = false) by reflexivity.
  destruct (not_started_is_fresh s Hr Hs) as (_ & _ & _ & Ho & Hp & _).
  exact (conj Hp Ho).
Defined.

Lemma gameStarted_run (es : list Event) : forall s : App,
  gameStarted s = true -> gameStarted (run s es) = true.
Proof.
  induction es as [|e es IH]; intros s Hs; [exact Hs|].
  cbn [run fold_left]. apply IH. rewrite gameStarted_handle, Hs. reflexivity.
Qed.

(** X6: a started game never returns to the start screen: after any further
    events the phase is [Running] or [GameOver], never [NotStarted]. *)
Theorem started_stays_started (s : App) (es : list Event)
    (Hs : phase s <> NotStarted) :
  phase (run s es) <> NotStarted.
Proof.
  rewrite phase_NotStarted in *.
  rewrite gameStarted_run; [discriminate|].
  destruct (gameStarted s); [reflexivity | congruence].
Qed.

Lemma started_stays_started_witness :
  phase (run (startGame 0 (mount 816 1000)) (frames 1 60)) <> NotStarted.
Proof.
  apply (started_stays_started (startGame 0 (mount 816 1000)) (frames 1 60)).
  vm_compute. discriminate.
Defined.

(** ** Score *)

Lemma rewards_shape (tys : list ObjType) :
  (0 <= rewards tys)%Z /\ exists k, rewards tys = (5 * k)%Z.
Proof.
  induction tys as [|ty tys [IH0 [k IHk]]]; cbn [rewards fold_right].
  - split; [lia | exists 0%Z; reflexivity].
  - fold (rewards tys). split.
    + destruct ty; cbn [reward]; lia.
    + destruct ty; cbn [reward]; rewrite IHk;
        [exists k | exists (2 + k)%Z | exists (5 + k)%Z | exists (10 + k)%Z]; lia.
Qed.

Lemma score_gameLoop (now : Z) (rnd : Random) (s : App) :
  exists tys, score (gameLoop now rnd s) = (score s + rewards tys)%Z.
Proof.
  destruct (gameStarted s) eqn:Es; [destruct (gameOver s) eqn:Eo|].
  - exists []. rewrite gameLoop_paused by (now right). cbn. lia.
  - exists (frameOutcomes now rnd s).
    now destruct (gameLoop_running_fields now rnd s Es Eo) as (_ & _ & _ & -> & _).
  - exists []. rewrite gameLoop_paused by (now left). cbn. lia.
Qed.

Lemma score_handle (s : App) (e : Event) :
  match e with
  | Start _ => score (handle s e) = 0%Z
  | Frame now rnd => exists tys, score (handle s e) = (score s + rewards tys)%Z
  | _ => score (handle s e) = score s
  end.
Proof.
  destruct e; cbn [handle]; try reflexivity.
  - now destruct (handleResize_fields innerWidth innerHeight s) as (_ & _ & _ & -> & _).
  - apply score_gameLoop.
Qed.

(** X7: the score is never negative and always a multiple of 5; a frame
    never lowers it, and only [startGame] resets it. *)
Theorem score_shape (s : App) (Hr : reachable s) :
  (0 <= score s)%Z
  /\ (exists k, score s = (5 * k)%Z)
  /\ (forall now rnd, (score s <= score (gameLoop now rnd s))%Z)
  /\ (forall e, isStart e = false -> (score s <= score (handle s e))%Z).
Proof.
  assert (Hinv : (0 <= score s)%Z /\ exists k, score s = (5 * k)%Z).
  { destruct Hr as (w & h & es & ->).
    apply (run_invariant (fun s => (0 <= score s)%Z /\ exists k, score s = (5 * k)%Z)).
    - intros t e [H0 [k Hk]]. assert (H := score_handle t e).
      destruct e; try (rewrite H; split; [exact H0 | exists k; exact Hk]).
      + rewrite H. split; [lia | exists 0%Z; reflexivity].
      + destruct H as [tys ->]. destruct (rewards_shape tys) as [R0 [j Rj]].
        split; [lia | exists (k + j)%Z; lia].
    - split; [cbn; lia | exists 0%Z; reflexivity]. }
  destruct Hinv as [H0 Hk]. split; [exact H0|]. split; [exact Hk|]. split.
  - intros now rnd. destruct (score_gameLoop now rnd s) as [tys ->].
    destruct (rewards_shape tys). lia.
  - intros e He. assert (H := score_handle s e).
    destruct e; try discriminate He; try (rewrite H; lia).
    destruct H as [tys ->]. destruct (rewards_shape tys). lia.
Qed.

Lemma score_shape_witness :
  let s := run (mount 816 1000) coinRun in
  score s = 10%Z
  /\ (0 <= score s)%Z
  /\ (exists k, score s = (5 * k)%Z)
  /\ (score s <= score (gameLoop 4097 coinAtTheEdge s))%Z
  /\ (score s <= score (handle s (KeyDown "ArrowLeft")))%Z.
Proof.
  intros s.
  assert (Hr : reachable s) by (exists 816, 1000, coinRun; reflexivity).
  destruct (score_shape s Hr) as (H0 & Hk & Hf & He).
  split; [vm_compute; reflexivity|].
  split; [exact H0|]. split; [exact Hk|].
  split; [apply Hf | apply He; reflexivity].
Defined.

(** ** Object ids *)

Lemma ids_fall (l : list GameObject.t) : ids (map fall l) = ids l.
Proof.
  unfold ids. rewrite map_map. apply map_ext. intros o. reflexivity.
Qed.

Lemma ids_filter_sorted (f : GameObject.t -> bool) (l : list GameObject.t) :
  StronglySorted Z.lt (ids l) -> StronglySorted Z.lt (ids (filter f l)).
Proof.
  induction l as [|o l IH]; intros H; [constructor|].
  cbn [ids map] in H. apply StronglySorted_inv in H as [Hs Hall].
  cbn [filter]. destruct (f o); [|now apply IH].
  cbn [ids map]. constructor; [now apply IH|].
  rewrite Forall_forall in *. intros i Hi. apply Hall.
  unfold ids in *. rewrite in_map_iff in *. destruct Hi as (x & <- & Hx).
  apply filter_In in Hx as [Hx _]. now exists x.
Qed.

Lemma ids_filter_all (P : Z -> Prop) (f : GameObject.t -> bool) (l : list GameObject.t) :
  Forall P (ids l) -> Forall P (ids (filter f l)).
Proof.
  rewrite !Forall_forall. intros H i Hi. apply H.
  unfold ids in *. rewrite in_map_iff in *. destruct Hi as (x & <- & Hx).
  apply filter_In in Hx as [Hx _]. now exists x.
Qed.

Lemma sorted_snoc (l : list Z) (n : Z) :
  StronglySorted Z.lt l -> Forall (fun i => (i < n)%Z) l ->
  StronglySorted Z.lt (l ++ [n]).
Proof.
  induction l as [|a l IH]; intros Hs Ha; cbn [app].
  - repeat constructor.
  - apply StronglySorted_inv in Hs as [Hs Hl]. inversion Ha; subst.
    constructor; [now apply IH|].
    apply Forall_app. split; [exact Hl | now repeat constructor].
Qed.

Lemma idsInvariant_trySpawn (now : Z) (rnd : Random) (s : App) :
  idsInvariant s -> idsInvariant (trySpawn now rnd s).
Proof.
  intros (Hs & Ha & H0). unfold trySpawn.
  destruct (now - lastSpawnRef s >? 1000)%Z; [|now repeat split].
  unfold idsInvariant. cbn [setLastSpawnRef spawnObject setObjects setObjectIdRef
    objects objectIdRef].
  unfold ids. rewrite map_app. cbn [map newObject GameObject.id]. fold (ids (objects s)).
  split; [|split; [|lia]].
  - apply sorted_snoc; [exact Hs|].
    eapply Forall_impl; [|exact Ha]. cbn. intros; lia.
  - apply Forall_app. split.
    + eapply Forall_impl; [|exact Ha]. cbn. intros; lia.
    + repeat constructor; lia.
Qed.

Lemma idsInvariant_handle (s : App) (e : Event) :
  idsInvariant s -> idsInvariant (handle s e).
Proof.
  intros Hinv. destruct e; cbn [handle]; try exact Hinv.
  - destruct (handleResize_fields innerWidth innerHeight s)
      as (_ & _ & _ & _ & _ & Hob & _ & _ & Hid & _).
    unfold idsInvariant. now rewrite Hob, Hid.
  - destruct Hinv as (_ & _ & H0). repeat split; cbn; try constructor; exact H0.
  - destruct (gameStarted s) eqn:Es; [destruct (gameOver s) eqn:Eo|].
    + now rewrite gameLoop_paused by (now right).
    + destruct (gameLoop_running_fields now rnd s Es Eo)
        as (_ & _ & _ & _ & _ & _ & Hob & _ & _ & Hid & _).
      destruct (idsInvariant_trySpawn now rnd s Hinv) as (Hs & Ha & H0).
      unfold idsInvariant. rewrite Hob, Hid.
      unfold frameRemaining, frameUpdated, updated.
      split; [|split; [|exact H0]].
      * apply ids_filter_sorted, ids_filter_sorted. now rewrite ids_fall.
      * apply ids_filter_all, ids_filter_all. now rewrite ids_fall.
    + now rewrite gameLoop_paused by (now left).
Qed.

(** X8: the ids of the objects on the field, used as render keys, are
    pairwise distinct: along the list they strictly increase, they are
    non-negative and below the counter [objectIdRef], which never decreases
    (a restart clears the list but keeps the counter). *)
Theorem object_ids_unique (s : App) (Hr : reachable s) :
  NoDup (ids (objects s))
  /\ StronglySorted Z.lt (ids (objects s))
  /\ Forall (fun i => (0 <= i < objectIdRef s)%Z) (ids (objects s))
  /\ forall e, (objectIdRef s <= objectIdRef (handle s e))%Z.
Proof.
  assert (Hinv : idsInvariant s).
  { destruct Hr as (w & h & es & ->).
    apply run_invariant; [apply idsInvariant_handle|].
    repeat split; cbn; try constructor; lia. }
  destruct Hinv as (Hs & Ha & H0).
  split; [|split; [exact Hs|split; [exact Ha|]]].
  - clear Ha. induction Hs as [|a l Hs IH Hl]; constructor; [|exact IH].
    intros Hin. rewrite Forall_forall in Hl. apply Hl in Hin. lia.
  - intros e. destruct e; cbn [handle]; try (cbn; lia).
    + destruct (handleResize_fields innerWidth innerHeight s)
        as (_ & _ & _ & _ & _ & _ & _ & _ & -> & _). lia.
    + destruct (gameStarted s) eqn:Es; [destruct (gameOver s) eqn:Eo|].
      * rewrite gameLoop_paused by (now right). lia.
      * destruct (gameLoop_running_fields now rnd s Es Eo)
          as (_ & _ & _ & _ & _ & _ & _ & _ & _ & -> & _).
        unfold trySpawn. destruct (now - lastSpawnRef s >? 1000)%Z; cbn; lia.
      * rewrite gameLoop_paused by (now left). lia.
Qed.

Lemma object_ids_unique_witness :
  NoDup (ids (objects (run (mount 816 1000) (Start 0 :: frames 1 356)))).
Proof.
  apply (object_ids_unique (run (mount 816 1000) (Start 0 :: frames 1 356))).
  exists 816, 1000, (Start 0 :: frames 1 356). reflexivity.
Defined.

(** ** Hearts *)

(** X9: the score bar shows [lives] filled hearts, cut off at 0 and at 3:
    with negative lives no heart is filled.  In a reachable state that is
    [max 0 lives]. *)
Theorem hearts_show_clamped_lives (s : App) :
  List.length (hearts s) = 3%nat
  /\ filledHearts s = Z.max 0 (Z.min 3 (lives s))
  /\ (reachable s -> filledHearts s = Z.max 0 (lives s)).
Proof.
  assert (H : filledHearts s = Z.max 0 (Z.min 3 (lives s))).
  { unfold filledHearts, hearts. cbn [map filter].
    destruct (Z.ltb_spec 0 (lives s)), (Z.ltb_spec 1 (lives s)),
      (Z.ltb_spec 2 (lives s)); cbn [filter List.length Z.of_nat]; lia. }
  split; [reflexivity|]. split; [exact H|].
  intros Hr. apply reachable_livesInvariant in Hr as (Hle & _). lia.
Qed.

(** ** Held keys *)

Lemma has_app (ks ks' : list string) (k : string) :
  has (ks ++ ks') k = has ks k || has ks' k.
Proof. unfold has. apply existsb_app. Qed.

Lemma has_filter (ks : list string) (key k : string) :
  has (filter (fun k' => negb (String.eqb key k')) ks) k
  = has ks k && negb (String.eqb key k).
Proof.
  unfold has. induction ks as [|a ks IH]; [reflexivity|].
  cbn [filter existsb].
  destruct (String.eqb_spec key a) as [->|Hne]; cbn [negb].
  - rewrite IH. destruct (String.eqb_spec k a) as [->|Hka].
    + rewrite String.eqb_refl. cbn. now rewrite andb_false_r.
    + reflexivity.
  - cbn [existsb]. rewrite IH.
    destruct (String.eqb_spec k a) as [->|Hka]; [|reflexivity].
    destruct (String.eqb_spec key a); [congruence|]. reflexivity.
Qed.

Lemma handleKeyDown_held (key : string) (t : App) :
  has (keys t) key = true -> handleKeyDown key t = t.
Proof.
  intros H. unfold handleKeyDown, setKeys. rewrite H. now destruct t.
Qed.

(** X10: the held-key list behaves as the set of the source: after a
    key-down the key is held and every other key is held as before; after a
    key-up the key is not held and every other key is held as before; a
    repeated key-down (auto-repeat) changes nothing; the list never holds a
    key twice. *)
Theorem keys_behave_as_a_set (s : App) (key k : string) :
  has (keys (handleKeyDown key s)) k = has (keys s) k || String.eqb key k
  /\ has (keys (handleKeyUp key s)) k = has (keys s) k && negb (String.eqb key k)
  /\ handleKeyDown key (handleKeyDown key s) = handleKeyDown key s
  /\ (NoDup (keys s) -> NoDup (keys (handleKeyDown key s))
                        /\ NoDup (keys (handleKeyUp key s))).
Proof.
  assert (Hdown : forall k', has (keys (handleKeyDown key s)) k'
                             = has (keys s) k' || String.eqb key k').
  { intros k'. unfold handleKeyDown. cbn [setKeys keys].
    destruct (has (keys s) key) eqn:E.
    - destruct (String.eqb_spec key k') as [<-|]; [|now rewrite orb_false_r].
      now rewrite E.
    - rewrite has_app. unfold has at 2. cbn [existsb]. rewrite orb_false_r.
      now rewrite (String.eqb_sym k' key). }
  split; [apply Hdown|]. split; [apply has_filter|]. split.
  - assert (Hk := Hdown key). rewrite String.eqb_refl, orb_true_r in Hk.
    apply handleKeyDown_held, Hk.
  - intros Hnd. split.
    + unfold handleKeyDown. cbn [setKeys keys].
      destruct (has (keys s) key) eqn:E; [exact Hnd|].
      apply NoDup_app; [exact Hnd | repeat constructor; intros [] |].
      intros a Ha [Hk|[]]. subst a. unfold has in E.
      assert (Hex : existsb (String.eqb key) (keys s) = true).
      { apply existsb_exists. exists key. split; [exact Ha | apply String.eqb_refl]. }
      congruence.
    + unfold handleKeyUp. cbn [setKeys keys]. now apply NoDup_filter.
Qed.

(** ** The player *)

(** X11: as long as no resize arrives, the player stays inside the field:
    from a reachable state with [0 <= x <= width - playerSize], every
    sequence of key, touch, start and frame events ends in such a state;
    the hypothesis holds in particular in every state in which the game has
    not been started. *)
Theorem player_contained_without_resize (s : App) (es : list Event)
    (Hr : reachable s) (Hc : playerContained s)
    (Hes : forallb noResize es = true) :
  playerContained (run s es)
  /\ forall t, reachable t -> gameStarted t = false -> playerContained t.
Proof.
  split.
  - revert s Hr Hc Hes. induction es as [|e es IH]; intros s Hr Hc Hes; [exact Hc|].
    cbn [forallb] in Hes. apply andb_prop in Hes as [He Hes].
    cbn [run fold_left]. apply IH; [now apply reachable_handle | | exact Hes].
    apply contained_step; [exact Hr | exact Hc |].
    left. unfold noResize in He. now apply negb_true_iff in He.
  - intros t Ht Hs. assert (Hp := not_started_fresh_player t Ht Hs).
    unfold playerContained. rewrite Hp.
    apply centredPlayer_contained, reachable_playable, Ht.
Qed.

Lemma player_contained_without_resize_witness :
  playerContained
    (run (mount 816 1000) (KeyDown "ArrowRight" :: Start 0 :: frames 1 100)).
Proof.
  assert (Hr : reachable (mount 816 1000)) by (exists 816, 1000, []; reflexivity).
  assert (Hc : playerContained (mount 816 1000))
    by (split; vm_compute; discriminate).
  assert (Hes : forallb noResize (KeyDown "ArrowRight" :: Start 0 :: frames 1 100) = true)
    by (vm_compute; reflexivity).
  exact (proj1 (player_contained_without_resize (mount 816 1000) _ Hr Hc Hes)).
Defined.

(** X12: a frame moves the player by at most [playerSpeed] horizontally
    and never vertically and never resizes it; with no direction held the
    player record is unchanged; when right is held (alone or together with
    left) the new x is [min (width - playerSize) (x + playerSpeed)]; when
    only left is held it is [max 0 (x - playerSpeed)]. *)
Theorem player_moves_at_most_speed (now : Z) (rnd : Random) (s : App)
    (Hr : reachable s) (Hc : playerContained s) (Hrun : phase s = Running) :
  let p := player s in
  let p' := player (gameLoop now rnd s) in
  let v := GameDimensions.playerSpeed (dims s) in
  Player.y p' = Player.y p
  /\ Player.width p' = Player.width p
  /\ Player.height p' = Player.height p
  /\ Player.x p - v <= Player.x p' <= Player.x p + v
  /\ (isMovingLeft s = false -> isMovingRight s = false -> p' = p)
  /\ (isMovingRight s = true ->
        Player.x p'
        = Qmin (GameDimensions.width (dims s) - GameDimensions.playerSize (dims s))
               (Player.x p + v))
  /\ (isMovingLeft s = true -> isMovingRight s = false ->
        Player.x p' = Qmax 0 (Player.x p - v)).
Proof.
  intros p p' v. apply phase_Running in Hrun as [Es Eo].
  destruct (gameLoop_running_fields now rnd s Es Eo) as (_ & _ & _ & _ & _ & Hp & _).
  fold p' in Hp. rewrite Hp. unfold currentPlayer, movePlayer. fold p v.
  cbn [Player.x Player.y Player.width Player.height].
  destruct (reachable_playable s Hr) as [Hw Hv]. fold v in Hv.
  destruct Hc as [Hc0 Hc1]. fold p in Hc0, Hc1.
  do 3 (split; [reflexivity|]).
  split; [destruct (isMovingLeft s), (isMovingRight s); minmax; lra|].
  split; [intros -> ->; now destruct p|].
  split; [intros ->; reflexivity|].
  intros -> ->. reflexivity.
Qed.

Lemma player_moves_at_most_speed_witness :
  let s := run (mount 816 1000) [KeyDown "d"; Start 0] in
  Player.x (player s) - 8 <= Player.x (player (gameLoop 17 coinAtTheEdge s))
  <= Player.x (player s) + 8.
Proof.
  intros s.
  assert (Hr : reachable s) by (eexists _, _, _; reflexivity).
  assert (Hc : playerContained s) by (split; vm_compute; discriminate).
  assert (Hrun : phase s = Running) by reflexivity.
  destruct (player_moves_at_most_speed 17 coinAtTheEdge s Hr Hc Hrun)
    as (_ & _ & _ & H & _).
  exact H.
Defined.

(** ** Objects on the field *)

Lemma filter_filter_and {A : Type} (f g : A -> bool) (l : list A) :
  filter g (filter f l) = filter (fun a => f a && g a) l.
Proof.
  induction l as [|a l IH]; [reflexivity|].
  cbn [filter]. destruct (f a); cbn [andb filter]; [destruct (g a)|]; now rewrite IH.
Qed.

Lemma frameRemaining_stays (now : Z) (rnd : Random) (s : App) :
  frameRemaining now rnd s
  = filter (stays (dims s) (currentPlayer s))
           (map fall (objects (trySpawn now rnd s))).
Proof.
  unfold frameRemaining, frameUpdated, updated. now rewrite filter_filter_and.
Qed.

(** X13: a frame of a running game does nothing to an object but let it
    fall: the new list is, in the old order, the old objects (and the one
    just spawned, if any) with [y] increased by their own speed, minus
    those that reached the bottom of the field and those that touch the
    player; x, speed, id and category never change. *)
Theorem objects_only_fall (now : Z) (rnd : Random) (s : App)
    (Hrun : phase s = Running) :
  let s' := gameLoop now rnd s in
  let d := dims s in
  let p := currentPlayer s in
  objects s' = filter (stays d p) (map fall (objects (trySpawn now rnd s)))
  /\ (objects (trySpawn now rnd s) = objects s
      \/ objects (trySpawn now rnd s) = objects s ++ [newObject rnd s])
  /\ forall o', In o' (objects s') <->
       exists o, In o (objects (trySpawn now rnd s))
         /\ GameObject.id o' = GameObject.id o
         /\ GameObject.type o' = GameObject.type o
         /\ GameObject.x o' = GameObject.x o
         /\ GameObject.speed o' = GameObject.speed o
         /\ GameObject.y o' = GameObject.y o + GameObject.speed o
         /\ GameObject.y o' < GameDimensions.height d
         /\ checkCollision d o' p = false.
Proof.
  intros s' d p. apply phase_Running in Hrun as [Es Eo].
  destruct (gameLoop_running_fields now rnd s Es Eo)
    as (_ & _ & _ & _ & _ & _ & Hob & _).
  fold s' in Hob. rewrite frameRemaining_stays in Hob. fold d p in Hob.
  split; [exact Hob|]. split.
  - unfold trySpawn. destruct (now - lastSpawnRef s >? 1000)%Z;
      [right | left]; reflexivity.
  - intros o'. rewrite Hob, filter_In, in_map_iff. unfold stays.
    rewrite andb_true_iff, negb_true_iff, Qltb_lt. split.
    + intros [(o & <- & Hin) [Hy Hc]]. exists o. repeat split; assumption.
    + intros (o & Hin & Hid & Hty & Hx & Hsp & Hy & Hlt & Hc).
      assert (E : fall o = o').
      { destruct o, o'. cbn in *. unfold fall. cbn. congruence. }
      split; [exists o; split; assumption|]. split; assumption.
Qed.

Lemma objects_only_fall_witness :
  let s := run (mount 816 1000) (Start 0 :: frames 1 138) in
  objects (gameLoop (17 * 139) (rndAt 139) s)
  = filter (stays (dims s) (currentPlayer s))
      (map fall (objects (trySpawn (17 * 139) (rndAt 139) s))).
Proof.
  intros s.
  assert (Hrun : phase s = Running) by (vm_compute; reflexivity).
  exact (proj1 (objects_only_fall (17 * 139) (rndAt 139) s Hrun)).
Defined.

Lemma baseSpeed_range (ty : ObjType) (r : Q) :
  0 <= r < 1 -> 2 <= baseSpeed ty r < 5.
Proof.
  intros Hr. destruct ty; cbn [baseSpeed ObjType_eqb]; lra.
Qed.

Lemma newObject_wellFormed (rnd : Random) (s : App) :
  boxed (dims s) -> validRandom rnd -> wellFormedObject (newObject rnd s).
Proof.
  intros (Hw & Hh & _ & Ho & _) (_ & Hs & Hx).
  unfold wellFormedObject, newObject.
  cbn [GameObject.speed GameObject.x GameObject.y].
  assert (Hb := baseSpeed_range (pickType (rType rnd)) (rSpeed rnd) Hs).
  revert Hb. generalize (baseSpeed (pickType (rType rnd)) (rSpeed rnd)). intros b Hb.
  assert (E := Qdiv_as_mult (GameDimensions.height (dims s)) 600).
  unfold BASE_HEIGHT. rewrite E.
  generalize dependent (GameDimensions.height (dims s)). intros H Hh _.
  generalize dependent (GameDimensions.width (dims s)). intros W Hw.
  generalize dependent (GameDimensions.objectSize (dims s)). intros O Ho.
  generalize dependent (rX rnd). intros rx Hx.
  repeat split; try lra.
  - apply Qle_trans with (2 * (H * (1 # 600))); [lra|].
    apply Qmult_le_compat_r; lra.
  - apply Qle_trans with (b * 1); [|lra].
    apply Qmult_le_l; lra.
  - apply Qmult_le_0_compat; lra.
  - apply Qlt_le_trans with (1 * (W - O)); [|lra].
    apply Qmult_lt_compat_r; lra.
Qed.

Lemma fall_wellFormed (o : GameObject.t) :
  wellFormedObject o -> wellFormedObject (fall o).
Proof.
  intros (Hs & Hx & Hy). unfold wellFormedObject, fall.
  cbn [GameObject.speed GameObject.x GameObject.y]. repeat split; lra.
Qed.

Lemma Forall_filter_keep {A : Type} (P : A -> Prop) (f : A -> bool) (l : list A) :
  Forall P l -> Forall P (filter f l).
Proof.
  rewrite !Forall_forall. intros H a Ha. apply filter_In in Ha as [Ha _]. auto.
Qed.

Lemma wellFormed_handle (s : App) (e : Event) :
  boxed (dims s) -> validEvent e ->
  Forall wellFormedObject (objects s) ->
  Forall wellFormedObject (objects (handle s e)).
Proof.
  intros Hb Hv Hall. destruct e; cbn [handle]; try exact Hall.
  - now destruct (handleResize_fields innerWidth innerHeight s)
      as (_ & _ & _ & _ & _ & -> & _).
  - constructor.
  - destruct (gameStarted s) eqn:Es; [destruct (gameOver s) eqn:Eo|].
    + now rewrite gameLoop_paused by (now right).
    + destruct (gameLoop_running_fields now rnd s Es Eo)
        as (_ & _ & _ & _ & _ & _ & -> & _).
      rewrite frameRemaining_stays. apply Forall_filter_keep.
      rewrite Forall_forall. intros o' Ho'. apply in_map_iff in Ho' as (o & <- & Ho).
      apply fall_wellFormed.
      unfold trySpawn in Ho. destruct (now - lastSpawnRef s >? 1000)%Z.
      * cbn [setLastSpawnRef spawnObject setObjects setObjectIdRef objects] in Ho.
        apply in_app_or in Ho as [Ho|[<-|[]]].
        -- rewrite Forall_forall in Hall. now apply Hall.
        -- now apply newObject_wellFormed.
      * rewrite Forall_forall in Hall. now apply Hall.
    + now rewrite gameLoop_paused by (now left).
Qed.

(** X14: when every random value lies in [0, 1), every object on the field
    of any reachable state, whatever resizes happened, has a fall speed in
    [2/3, 5] (the upper end is reached only by rounding), an x in [0, 784)
    and a y of at least -30; in particular every frame strictly increases
    the y of every surviving object. *)
Theorem objects_well_formed (w h : Q) (es : list Event)
    (Hes : Forall validEvent es) :
  let s := run (mount w h) es in
  Forall wellFormedObject (objects s)
  /\ forall o, In o (objects s) -> GameObject.y o < GameObject.y (fall o).
Proof.
  intros s.
  assert (H : Forall wellFormedObject (objects s)).
  { subst s. revert Hes.
    assert (Hgen : forall t, reachable t -> Forall wellFormedObject (objects t) ->
              Forall validEvent es -> Forall wellFormedObject (objects (run t es))).
    { induction es as [|e es IH]; intros t Ht Hall Hv; [exact Hall|].
      inversion Hv; subst. cbn [run fold_left].
      apply IH; [now apply reachable_handle | | assumption].
      apply wellFormed_handle; [now apply reachable_boxed | assumption | exact Hall]. }
    intros Hv. apply Hgen; [exists w, h, []; reflexivity | constructor | exact Hv]. }
  split; [exact H|].
  intros o Ho. rewrite Forall_forall in H. destruct (H o Ho) as (Hs & _).
  cbn [fall GameObject.y]. lra.
Qed.

Lemma objects_well_formed_witness :
  Forall wellFormedObject (objects (run (mount 816 1000) [Start 0; Frame 1001 coinAtTheEdge])).
Proof.
  apply (objects_well_formed 816 1000 [Start 0; Frame 1001 coinAtTheEdge]).
  repeat constructor; cbn; try discriminate.
Defined.

Lemma centredPlayer_low (d : GameDimensions.t) :
  boxed d -> 140 <= Player.y (centredPlayer d).
Proof.
  intros (_ & Hh & Hp & _). cbn [centredPlayer Player.y]. lra.
Qed.

Lemma reachable_player_low (s : App) : reachable s -> 140 <= Player.y (player s).
Proof.
  intros (w & h & es & ->).
  assert (H : boxed (dims (run (mount w h) es))
              /\ 140 <= Player.y (player (run (mount w h) es))).
  { apply (run_invariant (fun s => boxed (dims s) /\ 140 <= Player.y (player s))).
    - intros s e [Hb Hy].
      assert (Hb' : boxed (dims (handle s e))).
      { destruct (dims_handle s e) as [->|(w' & h' & _ & ->)];
          [exact Hb | apply boxed_calculateDimensions]. }
      split; [exact Hb'|].
      destruct e; cbn [handle] in *; try exact Hy.
      + destruct (handleResize_fields innerWidth innerHeight s)
          as (_ & _ & _ & _ & _ & _ & _ & _ & _ & _ & ->).
        destruct (gameStarted s); [exact Hy|].
        apply centredPlayer_low, boxed_calculateDimensions.
      + cbn. apply (centredPlayer_low (dims s) Hb).
      + destruct (gameStarted s) eqn:Es; [destruct (gameOver s) eqn:Eo|].
        * now rewrite gameLoop_paused by (now right).
        * destruct (gameLoop_running_fields now rnd s Es Eo)
            as (_ & _ & _ & _ & _ & -> & _).
          exact Hy.
        * now rewrite gameLoop_paused by (now left).
    - split; [apply boxed_calculateDimensions|].
      apply centredPlayer_low, boxed_calculateDimensions. }
  apply H.
Qed.

(** X15: the frame that spawns an object (with random values in [0, 1))
    also lets it fall once, and the new object always survives that frame:
    it is the last object of the list, at [y = speed - objectSize], which is
    still above the top edge of the field. *)
Theorem spawned_object_survives_its_frame (now : Z) (rnd : Random) (s : App)
    (Hr : reachable s) (Hrun : phase s = Running)
    (Hdue : (1000 < now - lastSpawnRef s)%Z) (Hv : validRandom rnd) :
  let o := newObject rnd s in
  objects (gameLoop now rnd s)
  = filter (stays (dims s) (currentPlayer s)) (map fall (objects s)) ++ [fall o]
  /\ GameObject.id o = objectIdRef s
  /\ GameObject.y (fall o)
     == GameObject.speed o - GameDimensions.objectSize (dims s)
  /\ GameObject.y (fall o) < 0.
Proof.
  intros o. apply phase_Running in Hrun as [Es Eo].
  destruct (gameLoop_running_fields now rnd s Es Eo)
    as (_ & _ & _ & _ & _ & _ & Hob & _).
  rewrite frameRemaining_stays in Hob.
  destruct (trySpawn_due now rnd s Hdue) as (Hsp & _). rewrite Hsp in Hob.
  assert (Hb := reachable_boxed s Hr).
  destruct (newObject_wellFormed rnd s Hb Hv) as (Hspeed & _ & _). fold o in Hspeed.
  assert (Hpy := reachable_player_low s Hr).
  destruct Hb as (_ & Hh & _ & Ho & _).
  assert (Hy : GameObject.y (fall o)
               == GameObject.speed o - GameDimensions.objectSize (dims s)).
  { cbn [fall GameObject.y o newObject]. ring. }
  assert (Hst : stays (dims s) (currentPlayer s) (fall o) = true).
  { unfold stays. apply andb_true_intro. split.
    - apply Qltb_lt. rewrite Hy. lra.
    - apply negb_true_iff. unfold checkCollision.
      assert (Hf : Qltb (Player.y (currentPlayer s))
                     (GameObject.y (fall o) + GameDimensions.objectSize (dims s)) = false).
      { apply Qltb_ge. rewrite Hy. cbn [currentPlayer movePlayer Player.y]. lra. }
      rewrite Hf. apply andb_false_r. }
  split; [|split; [reflexivity|split; [exact Hy|rewrite Hy; lra]]].
  rewrite Hob, map_app, filter_app. cbn [map filter]. fold o. now rewrite Hst.
Qed.

Lemma spawned_object_survives_its_frame_witness :
  let s := startGame 0 (mount 816 1000) in
  GameObject.y (fall (newObject coinAtTheEdge s)) < 0.
Proof.
  intros s.
  assert (Hr : reachable s) by (exists 816, 1000, [Start 0]; reflexivity).
  assert (Hrun : phase s = Running) by reflexivity.
  assert (Hdue : (1000 < 1001 - lastSpawnRef s)%Z) by reflexivity.
  assert (Hv : validRandom coinAtTheEdge)
    by (repeat split; vm_compute; discriminate || reflexivity).
  exact (proj2 (proj2 (proj2
    (spawned_object_survives_its_frame 1001 coinAtTheEdge s Hr Hrun Hdue Hv)))).
Defined.

(** ** The fixed-size game and the responsive game *)

Lemma Qltb_equiv (a a' b b' : Q) : a == a' -> b == b' -> Qltb a b = Qltb a' b'.
Proof.
  intros Ha Hb. destruct (Qltb a' b') eqn:E.
  - apply Qltb_lt in E. apply Qltb_lt. lra.
  - apply Qltb_ge in E. apply Qltb_ge. lra.
Qed.

Lemma Qmax_equiv (a a' b b' : Q) : a == a' -> b == b' -> Qmax a b == Qmax a' b'.
Proof. intros Ha Hb. minmax; lra. Qed.

Lemma Qmin_equiv (a a' b b' : Q) : a == a' -> b == b' -> Qmin a b == Qmin a' b'.
Proof. intros Ha Hb. minmax; lra. Qed.

Lemma baseDims_large (w h : Q) :
  816 <= w -> 1000 <= h -> baseDims (calculateDimensions w h).
Proof.
  intros Hw Hh. assert (E := calculateScale_large w h Hw Hh).
  destruct (dimensions_of_scale w h) as (H1 & H2 & H3 & H4 & H5).
  unfold baseDims. rewrite H1, H2, H3, H4, H5.
  rewrite !(floorMax_at _ _ _ 1 E).
  repeat split; try reflexivity.
  revert E. generalize (calculateScale w h). intros sc E. minmax; lra.
Qed.

Lemma checkCollision_sim (d : GameDimensions.t) (a b : GameObject.t) (p q : Player.t) :
  baseDims d -> objEquiv a b -> plrEquiv p q ->
  Fixed.checkCollision a p = checkCollision d b q.
Proof.
  intros (_ & _ & _ & Ho & _) (_ & _ & Hx & Hy & _) (Px & Py & Pw & Ph).
  unfold Fixed.checkCollision, checkCollision, Fixed.OBJECT_SIZE.
  rewrite (Qltb_equiv (GameObject.x a) (GameObject.x b)
             (Player.x p + Player.width p) (Player.x q + Player.width q))
    by lra.
  rewrite (Qltb_equiv (Player.x p) (Player.x q)
             (GameObject.x a + 30) (GameObject.x b + GameDimensions.objectSize d))
    by lra.
  rewrite (Qltb_equiv (GameObject.y a) (GameObject.y b)
             (Player.y p + Player.height p) (Player.y q + Player.height q))
    by lra.
  rewrite (Qltb_equiv (Player.y p) (Player.y q)
             (GameObject.y a + 30) (GameObject.y b + GameDimensions.objectSize d))
    by lra.
  reflexivity.
Qed.

Lemma fall_sim (a b : GameObject.t) : objEquiv a b -> objEquiv (fall a) (fall b).
Proof.
  intros (Hi & Ht & Hx & Hy & Hs). unfold objEquiv, fall.
  cbn [GameObject.id GameObject.type GameObject.x GameObject.y GameObject.speed].
  repeat split; try assumption. lra.
Qed.

Lemma Forall2_filter_sim {A B : Type} (R : A -> B -> Prop)
    (f : A -> bool) (g : B -> bool) (l1 : list A) (l2 : list B) :
  (forall a b, R a b -> f a = g b) ->
  Forall2 R l1 l2 -> Forall2 R (filter f l1) (filter g l2).
Proof.
  intros Hfg H. induction H as [|a b l1 l2 Hab H IH]; [constructor|].
  cbn [filter]. rewrite (Hfg a b Hab).
  destruct (g b); [constructor|]; assumption.
Qed.

Lemma Forall2_map_sim {A B : Type} (R : A -> B -> Prop)
    (f : A -> A) (g : B -> B) (l1 : list A) (l2 : list B) :
  (forall a b, R a b -> R (f a) (g b)) ->
  Forall2 R l1 l2 -> Forall2 R (map f l1) (map g l2).
Proof.
  intros Hfg H. induction H; cbn [map]; constructor; auto.
Qed.

Lemma updated_sim (d : GameDimensions.t) (l1 l2 : list GameObject.t) :
  baseDims d -> Forall2 objEquiv l1 l2 ->
  Forall2 objEquiv (Fixed.updated l1) (updated d l2).
Proof.
  intros Hd H. unfold Fixed.updated, updated.
  apply Forall2_filter_sim; [|apply Forall2_map_sim; [apply fall_sim | exact H]].
  intros a b (_ & _ & _ & Hy & _). destruct Hd as (_ & Hh & _).
  apply Qltb_equiv; [exact Hy|]. unfold Fixed.GAME_HEIGHT. now rewrite Hh.
Qed.

Lemma movePlayer_sim (d : GameDimensions.t) (l r : bool) (p q : Player.t) :
  baseDims d -> plrEquiv p q ->
  plrEquiv (Fixed.movePlayer l r p) (movePlayer d l r q).
Proof.
  intros (Hw & _ & Hp & _ & Hv) (Px & Py & Pw & Ph).
  unfold plrEquiv, Fixed.movePlayer, movePlayer,
    Fixed.PLAYER_SPEED, Fixed.GAME_WIDTH, Fixed.PLAYER_SIZE.
  cbn [Player.x Player.y Player.width Player.height].
  repeat split; try assumption.
  destruct l, r; try assumption;
    first [apply Qmin_equiv | apply Qmax_equiv]; lra.
Qed.

Lemma onCollision_sim (ty : ObjType) (f : Fixed.App) (s : App) :
  sim f s -> sim (Fixed.onCollision ty f) (onCollision ty s).
Proof.
  intros []. destruct ty; cbn [Fixed.onCollision onCollision].
  - rewrite sim_lives0. destruct (lives s - 1 <=? 0)%Z;
      constructor; cbn; try assumption; congruence.
  - constructor; cbn; try assumption; congruence.
  - constructor; cbn; try assumption; congruence.
  - constructor; cbn; try assumption; congruence.
Qed.

Lemma forEach_sim (d : GameDimensions.t) (p q : Player.t) (l1 l2 : list GameObject.t) :
  baseDims d -> plrEquiv p q -> Forall2 objEquiv l1 l2 ->
  forall (f : Fixed.App) (s : App) (r1 r2 : list GameObject.t),
    sim f s -> Forall2 objEquiv r1 r2 ->
    sim (fst (fold_left (Fixed.forEachBody p) l1 (f, r1)))
        (fst (fold_left (forEachBody d q) l2 (s, r2)))
    /\ Forall2 objEquiv (snd (fold_left (Fixed.forEachBody p) l1 (f, r1)))
                        (snd (fold_left (forEachBody d q) l2 (s, r2))).
Proof.
  intros Hd Hp H. induction H as [|a b l1 l2 Hab H IH]; intros f s r1 r2 Hs Hr.
  - split; assumption.
  - cbn [fold_left Fixed.forEachBody forEachBody].
    rewrite (checkCollision_sim d a b p q Hd Hab Hp).
    destruct (checkCollision d b q).
    + destruct Hab as (Hi & Ht & Hrest). rewrite Ht.
      apply IH; [now apply onCollision_sim | exact Hr].
    + apply IH; [exact Hs|]. apply Forall2_app; [exact Hr | now constructor].
Qed.

Lemma newObject_sim (rnd : Random) (f : Fixed.App) (s : App) :
  sim f s -> objEquiv (Fixed.newObject rnd f) (newObject rnd s).
Proof.
  intros []. destruct sim_dims0 as (Hw & Hh & _ & Ho & _).
  unfold objEquiv, Fixed.newObject, newObject,
    Fixed.GAME_WIDTH, Fixed.OBJECT_SIZE, BASE_HEIGHT.
  cbn [GameObject.id GameObject.type GameObject.x GameObject.y GameObject.speed].
  split; [assumption|]. split; [reflexivity|].
  split; [now rewrite Hw, Ho|]. split; [now rewrite Ho|].
  rewrite Hh. field.
Qed.

Lemma trySpawn_sim (now : Z) (rnd : Random) (f : Fixed.App) (s : App) :
  sim f s -> sim (Fixed.trySpawn now rnd f) (trySpawn now rnd s).
Proof.
  intros Hs. assert (Ho := newObject_sim rnd f s Hs). destruct Hs.
  unfold Fixed.trySpawn, trySpawn. rewrite sim_last0.
  destruct (now - lastSpawnRef s >? 1000)%Z; [|now constructor].
  constructor; cbn; try assumption; try congruence.
  apply Forall2_app; [assumption | now constructor].
Qed.

Lemma moving_sim (f : Fixed.App) (s : App) :
  sim f s ->
  Fixed.isMovingLeft f = isMovingLeft s /\ Fixed.isMovingRight f = isMovingRight s.
Proof.
  intros []. unfold Fixed.isMovingLeft, Fixed.isMovingRight, isMovingLeft, isMovingRight.
  rewrite sim_keys0, sim_touch0. cbn [touchIs]. now rewrite !orb_false_r.
Qed.

Lemma gameLoop_sim (now : Z) (rnd : Random) (f : Fixed.App) (s : App) :
  sim f s -> sim (Fixed.gameLoop now rnd f) (gameLoop now rnd s).
Proof.
  intros Hs. unfold Fixed.gameLoop, gameLoop.
  rewrite (sim_started f s Hs), (sim_over f s Hs).
  destruct (negb (gameStarted s) || gameOver s); [exact Hs|].
  assert (H1 := trySpawn_sim now rnd f s Hs).
  assert (Hd : baseDims (dims s)) by apply Hs.
  set (f1 := Fixed.trySpawn now rnd f) in *. set (s1 := trySpawn now rnd s) in *.
  destruct (moving_sim f1 s1 H1) as [-> ->].
  assert (Hp := movePlayer_sim (dims s) (isMovingLeft s1) (isMovingRight s1)
                  (Fixed.player f1) (player s1) Hd (sim_player f1 s1 H1)).
  set (p := Fixed.movePlayer _ _ _) in *. set (q := movePlayer _ _ _ _) in *.
  assert (H2 : sim (Fixed.setPlayer (fun _ => p) f1) (setPlayer (fun _ => q) s1)).
  { destruct H1. constructor; cbn; assumption. }
  assert (Hu := updated_sim (dims s) _ _ Hd (sim_objects _ _ H2)).
  destruct (forEach_sim (dims s) p q _ _ Hd Hp Hu _ _ [] [] H2 (Forall2_nil _))
    as [H3 H4].
  destruct (fold_left (Fixed.forEachBody p) _ _) as [f3 r1].
  destruct (fold_left (forEachBody (dims s) q) _ _) as [s3 r2].
  cbn [fst snd] in H3, H4.
  destruct H3. constructor; cbn; assumption.
Qed.

Lemma initialPlayer_sim (d : GameDimensions.t) :
  baseDims d -> plrEquiv Fixed.initialPlayer (centredPlayer d).
Proof.
  intros (Hw & Hh & Hp & _).
  unfold plrEquiv, Fixed.initialPlayer, centredPlayer,
    Fixed.GAME_WIDTH, Fixed.GAME_HEIGHT, Fixed.PLAYER_SIZE.
  cbn [Player.x Player.y Player.width Player.height].
  rewrite Hw, Hh, Hp. repeat split; reflexivity.
Qed.

Lemma handle_sim (e : Fixed.Event) (f : Fixed.App) (s : App) :
  sim f s -> sim (Fixed.handle f e) (handle s (responsive e)).
Proof.
  intros Hs. destruct e; cbn [Fixed.handle handle responsive].
  - destruct Hs. constructor; cbn; try assumption. now rewrite sim_keys0.
  - destruct Hs. constructor; cbn; try assumption. now rewrite sim_keys0.
  - destruct Hs.
    assert (HP : plrEquiv Fixed.initialPlayer (centredPlayer (dims s)))
      by (now apply initialPlayer_sim).
    constructor;
      [reflexivity | reflexivity | reflexivity | reflexivity | exact HP
      | cbn; constructor | assumption | assumption | reflexivity
      | assumption | assumption].
  - now apply gameLoop_sim.
Qed.

Lemma mount_sim (w h : Q) : 816 <= w -> 1000 <= h -> sim Fixed.mount (mount w h).
Proof.
  intros Hw Hh. assert (Hd := baseDims_large w h Hw Hh).
  assert (HP := initialPlayer_sim _ Hd).
  constructor;
    [reflexivity | reflexivity | reflexivity | reflexivity | exact HP
    | constructor | reflexivity | reflexivity | reflexivity
    | exact Hd | reflexivity].
Qed.

Lemma run_sim (es : list Fixed.Event) : forall (f : Fixed.App) (s : App),
  sim f s -> sim (Fixed.run f es) (run s (map responsive es)).
Proof.
  induction es as [|e es IH]; intros f s Hs; [exact Hs|].
  cbn [Fixed.run run map fold_left]. apply IH, handle_sim, Hs.
Qed.

(** X16: in a window of at least 816 x 1000 that is never resized and gets
    no touch input, the responsive game plays exactly the fixed-size game:
    after the same key, start and frame events (same clock readings, same
    random values) both have the same flags, score, lives, held keys, id
    counter and last spawn time, and the same objects in the same order
    with equal ids and categories and numerically equal coordinates and
    speeds; the players are numerically equal too. *)
Theorem responsive_plays_fixed_game (w h : Q) (es : list Fixed.Event)
    (Hw : 816 <= w) (Hh : 1000 <= h) :
  let f := Fixed.run Fixed.mount es in
  let s := run (mount w h) (map responsive es) in
  sim f s
  /\ Fixed.score f = score s
  /\ Fixed.lives f = lives s
  /\ Fixed.gameStarted f = gameStarted s
  /\ Fixed.gameOver f = gameOver s
  /\ map GameObject.id (Fixed.objects f) = map GameObject.id (objects s)
  /\ map GameObject.type (Fixed.objects f) = map GameObject.type (objects s).
Proof.
  intros f s.
  assert (H : sim f s) by (apply run_sim, mount_sim; assumption).
  split; [exact H|]. destruct H.
  repeat split; try assumption.
  - clear - sim_objects0. induction sim_objects0 as [|a b l1 l2 Hab _ IH];
      [reflexivity|]. cbn [map]. destruct Hab as (-> & _). now rewrite IH.
  - clear - sim_objects0. induction sim_objects0 as [|a b l1 l2 Hab _ IH];
      [reflexivity|]. cbn [map]. destruct Hab as (_ & -> & _). now rewrite IH.
Qed.

Lemma responsive_plays_fixed_game_witness :
  let es := [Fixed.KeyDown "d"; Fixed.Start 0; Fixed.Frame 1001 coinAtTheEdge;
             Fixed.Frame 1018 coinAtTheEdge] in
  Fixed.score (Fixed.run Fixed.mount es)
  = score (run (mount 1920 1080) (map responsive es))
  /\ map GameObject.id (Fixed.objects (Fixed.run Fixed.mount es)) = [0%Z].
Proof.
  intros es.
  assert (Hw : 816 <= 1920) by (vm_compute; discriminate).
  assert (Hh : 1000 <= 1080) by (vm_compute; discriminate).
  destruct (responsive_plays_fixed_game 1920 1080 es Hw Hh) as (_ & Hsc & _).
  split; [exact Hsc | vm_compute; reflexivity].
Defined.

(** ** Movement intent *)

Lemma has_exists (ks : list string) (k : string) :
  has ks k = existsb (fun k' => String.eqb k' k) ks.
Proof.
  unfold has. induction ks as [|a ks IH]; [reflexivity|].
  cbn [existsb]. now rewrite IH, (String.eqb_sym k a).
Qed.

Lemma isMovingLeft_held (s : App) :
  isMovingLeft s = leftKeyHeld s || touchIs (touchDirection s) left.
Proof.
  unfold isMovingLeft, leftKeyHeld, leftKey. f_equal.
  rewrite !has_exists. induction (keys s) as [|a ks IH]; [reflexivity|].
  cbn [existsb]. rewrite <- IH.
  destruct (String.eqb a "ArrowLeft"), (String.eqb a "a"), (String.eqb a "A");
    cbn [orb]; rewrite ?orb_true_r; try reflexivity;
    destruct (existsb (fun k' => String.eqb k' "ArrowLeft") ks); reflexivity.
Qed.

Lemma isMovingRight_held (s : App) :
  isMovingRight s = rightKeyHeld s || touchIs (touchDirection s) right.
Proof.
  unfold isMovingRight, rightKeyHeld, rightKey. f_equal.
  rewrite !has_exists. induction (keys s) as [|a ks IH]; [reflexivity|].
  cbn [existsb]. rewrite <- IH.
  destruct (String.eqb a "ArrowRight"), (String.eqb a "d"), (String.eqb a "D");
    cbn [orb]; rewrite ?orb_true_r; try reflexivity;
    destruct (existsb (fun k' => String.eqb k' "ArrowRight") ks); reflexivity.
Qed.

Lemma existsb_keyDown (p : string -> bool) (key : string) (s : App) :
  existsb p (keys (handleKeyDown key s)) = existsb p (keys s) || p key.
Proof.
  unfold handleKeyDown. cbn [setKeys keys].
  destruct (has (keys s) key) eqn:E.
  - unfold has in E. apply existsb_exists in E as (k & Hk & Ek).
    apply String.eqb_eq in Ek. subst k.
    destruct (p key) eqn:Ep; [|now rewrite orb_false_r].
    rewrite orb_true_r. apply existsb_exists. now exists key.
  - rewrite existsb_app. cbn [existsb]. now rewrite orb_false_r.
Qed.

(** X17: the movement intent is the union of its sources: the player
    steers left exactly when one of ArrowLeft, a, A is held or the touch
    direction is left, and likewise for right.  A key-down adds its own
    direction and removes none; a touch start sets its direction and drops
    the opposite touch, leaving the held keys in force; a touch end leaves
    exactly the held keys. *)
Theorem intent_is_union_of_sources (s : App) (key : string) :
  isMovingLeft s = leftKeyHeld s || touchIs (touchDirection s) left
  /\ isMovingRight s = rightKeyHeld s || touchIs (touchDirection s) right
  /\ isMovingLeft (handleKeyDown key s) = isMovingLeft s || leftKey key
  /\ isMovingRight (handleKeyDown key s) = isMovingRight s || rightKey key
  /\ isMovingLeft (handleTouchStart left s) = true
  /\ isMovingRight (handleTouchStart left s) = rightKeyHeld s
  /\ isMovingRight (handleTouchStart right s) = true
  /\ isMovingLeft (handleTouchStart right s) = leftKeyHeld s
  /\ isMovingLeft (handleTouchEnd s) = leftKeyHeld s
  /\ isMovingRight (handleTouchEnd s) = rightKeyHeld s.
Proof.
  split; [apply isMovingLeft_held|]. split; [apply isMovingRight_held|].
  rewrite !isMovingLeft_held, !isMovingRight_held.
  unfold leftKeyHeld, rightKeyHeld. rewrite !existsb_keyDown.
  cbn [handleKeyDown handleTouchStart handleTouchEnd setTouchDirection setKeys
       keys touchDirection touchIs Direction_eqb].
  rewrite !orb_false_r, !orb_true_r.
  repeat split; try reflexivity.
  - destruct (existsb leftKey (keys s)), (leftKey key),
      (touchIs (touchDirection s) left); reflexivity.
  - destruct (existsb rightKey (keys s)), (rightKey key),
      (touchIs (touchDirection s) right); reflexivity.
Qed.

(** * Binary64 reading *)

(** ** The rounding function *)

Lemma RNE_bounds (t : Q) :
  (Qfloor t <= Binary64.RNE t <= Qfloor t + 1)%Z.
Proof.
  unfold Binary64.RNE. destruct (Qcompare _ _); [destruct (Z.even _)| |]; lia.
Qed.

Lemma RNE_Z (n : Z) : Binary64.RNE (inject_Z n) = n.
Proof.
  unfold Binary64.RNE. rewrite Qfloor_Z.
  assert (E : inject_Z n - inject_Z n == 0) by ring.
  destruct (Qcompare_spec (inject_Z n - inject_Z n) (1 # 2)) as [H|H|H];
    rewrite E in H; try reflexivity; exfalso; revert H; vm_compute; congruence.
Qed.

Lemma RNE_mono (t u : Q) : t <= u -> (Binary64.RNE t <= Binary64.RNE u)%Z.
Proof.
  intros H. assert (Hf := Qfloor_resp_le t u H).
  destruct (Z.eq_dec (Qfloor t) (Qfloor u)) as [E|E].
  - unfold Binary64.RNE. rewrite E.
    destruct (Qcompare_spec (t - inject_Z (Qfloor u)) (1 # 2)),
             (Qcompare_spec (u - inject_Z (Qfloor u)) (1 # 2));
      destruct (Z.even (Qfloor u)); try lia; exfalso; lra.
  - assert (H1 := RNE_bounds t). assert (H2 := RNE_bounds u). lia.
Qed.

Lemma pow2_pos (k : Z) : 0 < 2 ^ k.
Proof. apply Qpower_0_lt. reflexivity. Qed.

Lemma pow2_plus (a b : Z) : 2 ^ (a + b) == 2 ^ a * 2 ^ b.
Proof. apply Qpower_plus. discriminate. Qed.

Lemma pow2_nonneg_exp (n : Z) : (0 <= n)%Z -> 2 ^ n == inject_Z (2 ^ n).
Proof. intros H. symmetry. now apply (Zpower_Qpower 2 n). Qed.

Lemma pow2_ge_1 (n : Z) : (0 <= n)%Z -> 1 <= 2 ^ n.
Proof.
  intros H. rewrite (pow2_nonneg_exp n H).
  change 1 with (inject_Z 1). rewrite <- Zle_Qle.
  assert (0 < 2 ^ n)%Z by (apply Z.pow_pos_nonneg; lia). lia.
Qed.

Lemma pow2_mono (a b : Z) : (a <= b)%Z -> 2 ^ a <= 2 ^ b.
Proof.
  intros H. replace b with (a + (b - a))%Z by lia. rewrite pow2_plus.
  assert (H1 := pow2_ge_1 (b - a) ltac:(lia)). assert (H2 := pow2_pos a).
  rewrite <- (Qmult_1_r (2 ^ a)) at 1.
  apply Qmult_le_l; assumption.
Qed.

Lemma pow2_succ (a : Z) : 2 ^ (a + 1) == 2 * 2 ^ a.
Proof. rewrite pow2_plus. change (2 ^ 1) with 2. ring. Qed.

Lemma pow2_sub (a b : Z) : 2 ^ (a - b) == 2 ^ a / 2 ^ b.
Proof.
  assert (H := pow2_plus (a - b) b). replace (a - b + b)%Z with a in H by lia.
  assert (Hb := pow2_pos b). rewrite H. field. lra.
Qed.

Lemma log2_frame (x : Q) : 0 < x ->
  let k := (Z.log2 (Qnum x) - Z.log2 (Zpos (Qden x)))%Z in
  2 ^ (k - 1) < x < 2 ^ (k + 1).
Proof.
  intros Hx k. destruct x as [n d]. cbn [Qnum Qden] in *.
  assert (Hn : (0 < n)%Z) by (unfold Qlt in Hx; cbn in Hx; lia).
  destruct (Z.log2_spec n Hn) as [Ha1 Ha2].
  destruct (Z.log2_spec (Zpos d) ltac:(lia)) as [Hb1 Hb2].
  assert (Ha0 := Z.log2_nonneg n). assert (Hb0 := Z.log2_nonneg (Zpos d)).
  set (a := Z.log2 n) in *. set (b := Z.log2 (Zpos d)) in *.
  assert (HA := pow2_nonneg_exp a Ha0). assert (HB := pow2_nonneg_exp b Hb0).
  assert (HPa : (0 < 2 ^ a)%Z) by (apply Z.pow_pos_nonneg; lia).
  assert (HPb : (0 < 2 ^ b)%Z) by (apply Z.pow_pos_nonneg; lia).
  rewrite Z.pow_succ_r in Ha2, Hb2 by assumption.
  assert (Hk1 : 2 ^ (k - 1) == inject_Z (2 ^ a) / (2 * inject_Z (2 ^ b))).
  { subst k. replace (a - b - 1)%Z with (a - (b + 1))%Z by lia.
    rewrite pow2_sub, pow2_succ, HA, HB. reflexivity. }
  assert (Hk2 : 2 ^ (k + 1) == 2 * inject_Z (2 ^ a) / inject_Z (2 ^ b)).
  { subst k. replace (a - b + 1)%Z with ((a + 1) - b)%Z by lia.
    rewrite pow2_sub, pow2_succ, HA, HB. reflexivity. }
  rewrite Hk1, Hk2.
  assert (HQb : 0 < inject_Z (2 ^ b))
    by (change 0 with (inject_Z 0); now rewrite <- Zlt_Qlt).
  clear Hk1 Hk2 HA HB. clearbody a b. clear k.
  split.
  - apply Qlt_shift_div_r.
    + unfold Qlt, Qmult, inject_Z. cbn [Qnum Qden]. lia.
    + unfold Qlt, Qmult, inject_Z. cbn [Qnum Qden].
      rewrite ?Pos.mul_1_r, ?Z.mul_1_r. nia.
  - apply Qlt_shift_div_l; [exact HQb|].
    unfold Qlt, Qmult, inject_Z. cbn [Qnum Qden].
    rewrite ?Pos.mul_1_r, ?Z.mul_1_r. nia.
Qed.

Lemma binade_spec (x : Q) :
  0 < x -> 2 ^ Binary64.binade x <= x < 2 ^ (Binary64.binade x + 1).
Proof.
  intros Hx. destruct (log2_frame x Hx) as [H1 H2]. unfold Binary64.binade.
  set (k := (Z.log2 (Qnum x) - Z.log2 (Zpos (Qden x)))%Z) in *.
  destruct (Qle_bool (2 ^ k) x) eqn:E.
  - apply Qle_bool_iff in E. split; assumption.
  - replace (k - 1 + 1)%Z with k by lia. split; [lra|].
    apply Qnot_le_lt. intros Hc. apply Qle_bool_iff in Hc. congruence.
Qed.


Lemma binade_mono (x y : Q) :
  0 < x -> x <= y -> (Binary64.binade x <= Binary64.binade y)%Z.
Proof.
  intros Hx Hxy. destruct (binade_spec x Hx) as [B1 B2].
  destruct (binade_spec y ltac:(lra)) as [C1 C2].
  destruct (Z_le_gt_dec (Binary64.binade x) (Binary64.binade y)) as [L|L]; [exact L|].
  assert (H := pow2_mono (Binary64.binade y + 1) (Binary64.binade x) ltac:(lia)). lra.
Qed.

Lemma ulp_pos (x : Q) : 0 < Binary64.ulp x.
Proof. apply pow2_pos. Qed.

Lemma binade_as_ulp (x : Q) :
  2 ^ Binary64.binade x == inject_Z (2 ^ 52) * Binary64.ulp x
  /\ 2 ^ (Binary64.binade x + 1) == inject_Z (2 ^ 53) * Binary64.ulp x.
Proof.
  unfold Binary64.ulp. split.
  - rewrite <- (pow2_nonneg_exp 52) by lia. rewrite <- pow2_plus.
    now replace (52 + (Binary64.binade x - 52))%Z with (Binary64.binade x) by lia.
  - rewrite <- (pow2_nonneg_exp 53) by lia. rewrite <- pow2_plus.
    now replace (53 + (Binary64.binade x - 52))%Z
      with (Binary64.binade x + 1)%Z by lia.
Qed.

Lemma scaled_range (x : Q) : 0 < x ->
  inject_Z (2 ^ 52) <= x / Binary64.ulp x <= inject_Z (2 ^ 53).
Proof.
  intros Hx. destruct (binade_spec x Hx) as [B1 B2]. assert (Hu := ulp_pos x).
  destruct (binade_as_ulp x) as [E1 E2].
  split.
  - apply Qle_shift_div_l; [exact Hu|]. lra.
  - apply Qle_shift_div_r; [exact Hu|]. lra.
Qed.

Lemma roundPos_range (x : Q) : 0 < x ->
  2 ^ Binary64.binade x <= Binary64.roundPos x <= 2 ^ (Binary64.binade x + 1).
Proof.
  intros Hx. destruct (scaled_range x Hx) as [S1 S2]. assert (Hu := ulp_pos x).
  apply RNE_mono in S1, S2. rewrite RNE_Z in S1, S2.
  rewrite Zle_Qle in S1, S2.
  destruct (binade_as_ulp x) as [E1 E2].
  unfold Binary64.roundPos. rewrite E1, E2.
  split; apply Qmult_le_compat_r; try assumption; lra.
Qed.

Lemma roundPos_mono (x y : Q) :
  0 < x -> x <= y -> Binary64.roundPos x <= Binary64.roundPos y.
Proof.
  intros Hx Hxy. assert (Hy : 0 < y) by lra.
  assert (Hb := binade_mono x y Hx Hxy).
  destruct (Z.eq_dec (Binary64.binade x) (Binary64.binade y)) as [E|E].
  - unfold Binary64.roundPos, Binary64.ulp. rewrite E.
    assert (Hu := pow2_pos (Binary64.binade y - 52)).
    apply Qmult_le_compat_r; [|lra].
    rewrite <- Zle_Qle. apply RNE_mono.
    apply Qle_shift_div_l; [exact Hu|].
    assert (Ex : x / 2 ^ (Binary64.binade y - 52) * 2 ^ (Binary64.binade y - 52) == x)
      by (field; lra).
    lra.
  - destruct (roundPos_range x Hx) as [_ X2]. destruct (roundPos_range y Hy) as [Y1 _].
    assert (H := pow2_mono (Binary64.binade x + 1) (Binary64.binade y) ltac:(lia)).
    lra.
Qed.

Lemma roundPos_pos (x : Q) : 0 < x -> 0 < Binary64.roundPos x.
Proof.
  intros Hx. destruct (roundPos_range x Hx) as [H _].
  assert (P := pow2_pos (Binary64.binade x)). lra.
Qed.

Lemma Qnum_sign (x : Q) :
  match Qnum x with
  | Z0 => x == 0
  | Zpos _ => 0 < x
  | Zneg _ => x < 0
  end.
Proof.
  destruct x as [[|p|p] d]; unfold Qeq, Qlt; cbn; lia.
Qed.

Lemma round_cases (x : Q) :
  (x == 0 /\ Binary64.round x = 0)
  \/ (0 < x /\ Binary64.round x = Binary64.roundPos x)
  \/ (x < 0 /\ Binary64.round x = - Binary64.roundPos (- x)).
Proof.
  assert (H := Qnum_sign x). unfold Binary64.round. destruct (Qnum x); auto.
Qed.

(** Rounding is monotone. *)
Lemma round_mono (x y : Q) : x <= y -> Binary64.round x <= Binary64.round y.
Proof.
  intros H.
  destruct (round_cases x) as [[Hx ->]|[[Hx ->]|[Hx ->]]],
           (round_cases y) as [[Hy ->]|[[Hy ->]|[Hy ->]]]; try lra.
  - assert (P := roundPos_pos y Hy). lra.
  - now apply roundPos_mono.
  - assert (P := roundPos_pos (- x) ltac:(lra)). lra.
  - assert (P := roundPos_pos (- x) ltac:(lra)).
    assert (P' := roundPos_pos y Hy). lra.
  - assert (P := roundPos_mono (- y) (- x) ltac:(lra) ltac:(lra)). lra.
Qed.

#[global] Instance round_comp : Proper (Qeq ==> Qeq) Binary64.round.
Proof. intros x y E. apply Qle_antisym; apply round_mono; lra. Qed.

(** The rounding is to nearest: the result is within half a spacing of the
    argument. *)
Lemma RNE_nearest (t : Q) :
  - (1 # 2) <= inject_Z (Binary64.RNE t) - t <= 1 # 2.
Proof.
  assert (F1 := Qfloor_le t). assert (F2 := Qlt_floor t).
  rewrite inject_Z_plus in F2. change (inject_Z 1) with 1 in F2.
  unfold Binary64.RNE.
  destruct (Qcompare_spec (t - inject_Z (Qfloor t)) (1 # 2)) as [H|H|H].
  - destruct (Z.even (Qfloor t)).
    + lra.
    + rewrite inject_Z_plus. change (inject_Z 1) with 1. lra.
  - lra.
  - rewrite inject_Z_plus. change (inject_Z 1) with 1. lra.
Qed.

Lemma roundPos_nearest (x : Q) :
  0 < x ->
  - (Binary64.ulp x / 2) <= Binary64.roundPos x - x <= Binary64.ulp x / 2.
Proof.
  intros Hx. assert (Hu := ulp_pos x).
  assert (N := RNE_nearest (x / Binary64.ulp x)).
  unfold Binary64.roundPos.
  set (n := inject_Z (Binary64.RNE (x / Binary64.ulp x))) in *.
  set (u := Binary64.ulp x) in *. clearbody n u.
  assert (E : x == (x / u) * u) by (field; lra).
  set (q := x / u) in *. clearbody q.
  assert (D : u / 2 == u * (1 # 2)) by (field).
  rewrite D. rewrite E.
  assert (A : n * u - q * u == (n - q) * u) by ring.
  rewrite A. destruct N as [N1 N2].
  split.
  - assert (M := Qmult_le_compat_r _ _ u N1 ltac:(lra)). lra.
  - assert (M := Qmult_le_compat_r _ _ u N2 ltac:(lra)). lra.
Qed.

(** The rounding agrees with the primitive binary64 operations of the
    kernel on the quotients of the grid and on their sums, differences and
    products, and at the inputs where the exact and the rounded reading of
    the program differ. *)
Lemma round_agrees_with_kernel :
  forallb Kernel64.agree Kernel64.grid = true
  /\ Kernel64.same Kernel64.belowOne53 Binary64.belowOne = true
  /\ Kernel64.same
       (PrimFloat.add (Kernel64.ofZ 3)
          (PrimFloat.mul Kernel64.belowOne52 (Kernel64.ofZ 2)))
       (Binary64.baseSpeed rock (1 - (1 # 4503599627370496))) = true
  /\ Kernel64.same
       (PrimFloat.mul (PrimFloat.div (Kernel64.ofZ 6) (Kernel64.ofZ 10)) (Kernel64.ofZ 5))
       (Binary64.mul Binary64.six_tenths 5) = true
  /\ Kernel64.same
       (PrimFloat.mul (Kernel64.ofZ 800)
          (PrimFloat.div (Kernel64.ofZ 414) (Kernel64.ofZ 800)))
       (Binary64.mul 800 (Binary64.div 414 800)) = true.
Proof. vm_compute. repeat split. Qed.












(** ** Fall speed in binary64 *)




(** ** Category selection in binary64 *)






(** ** Geometry in binary64 *)

Lemma calculateScale64_unfold (w h : Z) :
  Binary64.calculateScale w h
  = Qmax (Qmin (Qmin (Binary64.div (Binary64.sub (inject_Z w) 16) 800)
                     (Binary64.div (Binary64.mul (inject_Z h) Binary64.six_tenths) 600))
               1)
         Binary64.MIN_SCALE.
Proof. reflexivity. Qed.

Lemma calculateScale64_bounds (w h : Z) :
  Binary64.MIN_SCALE <= Binary64.calculateScale w h <= 1.
Proof.
  rewrite calculateScale64_unfold.
  assert (M : Binary64.MIN_SCALE <= 1) by (vm_compute; discriminate).
  revert M. generalize Binary64.MIN_SCALE. intros m M. minmax; lra.
Qed.

Lemma widthRows_ok : forallb widthRowOk widthRows = true.
Proof. vm_compute. reflexivity. Qed.

Lemma widthRow (a : Z) : (0 <= a < 800)%Z ->
  Binary64.round (inject_Z a) == inject_Z a
  /\ Math_floor (Binary64.mul 800 (Binary64.div (Binary64.round (inject_Z a)) 800))
     <= inject_Z a.
Proof.
  intros Ha. assert (H := widthRows_ok). rewrite forallb_forall in H.
  assert (Hin : In a widthRows).
  { unfold widthRows. apply in_map_iff. exists (Z.to_nat a).
    split; [lia|]. apply in_seq. lia. }
  apply H in Hin. unfold widthRowOk in Hin. apply andb_prop in Hin as [H1 H2].
  split; [now apply Qeq_bool_iff | now apply Qle_bool_iff].
Qed.

(** The [Math.min] with the available width never takes effect. *)
Lemma width64_min_redundant (w h : Z) :
  GameDimensions.width (Binary64.calculateDimensions w h)
  == Binary64.floorClamp BASE_WIDTH MIN_WIDTH (Binary64.calculateScale w h).
Proof.
  unfold Binary64.calculateDimensions, Binary64.floorClamp.
  cbn [GameDimensions.width]. unfold BASE_WIDTH, MIN_WIDTH.
  set (sc := Binary64.calculateScale w h).
  set (A := Binary64.sub (inject_Z w) 16).
  set (F := Math_floor (Binary64.mul 800 sc)).
  assert (Hsc : sc <= 1) by apply calculateScale64_bounds.
  assert (E800 : Binary64.round 800 == 800) by (vm_compute; reflexivity).
  assert (HF800 : F <= 800).
  { subst F. eapply Qle_trans; [apply Math_floor_le|].
    unfold Binary64.mul. apply Qle_trans with (Binary64.round 800); [|lra].
    apply round_mono. lra. }
  assert (Hor : F <= A \/ F <= 280).
  { assert (EA : inject_Z w - 16 == inject_Z (w - 16)).
    { unfold Zminus. rewrite inject_Z_plus. reflexivity. }
    assert (HA : A == Binary64.round (inject_Z (w - 16))).
    { subst A. unfold Binary64.sub. now rewrite EA. }
    destruct (Qlt_le_dec (Qmin (Qmin (Binary64.div A 800)
                (Binary64.div (Binary64.mul (inject_Z h) Binary64.six_tenths) 600)) 1)
              Binary64.MIN_SCALE) as [Hlow|Hhigh].
    - (* the minimum scale is in force *)
      right. assert (Es : sc == Binary64.MIN_SCALE).
      { subst sc. rewrite calculateScale64_unfold. fold A.
        revert Hlow. generalize Binary64.MIN_SCALE. intros m.
        generalize (Binary64.div A 800)
          (Binary64.div (Binary64.mul (inject_Z h) Binary64.six_tenths) 600).
        intros a b Hlow. minmax; lra. }
      subst F. unfold Binary64.mul. rewrite Es. vm_compute. discriminate.
    - left.
      assert (Hws : sc <= Binary64.div A 800).
      { subst sc. rewrite calculateScale64_unfold. fold A.
        revert Hhigh. generalize Binary64.MIN_SCALE. intros m.
        generalize (Binary64.div A 800)
          (Binary64.div (Binary64.mul (inject_Z h) Binary64.six_tenths) 600).
        intros a b Hhigh. minmax; lra. }
      destruct (Z_lt_le_dec (w - 16) 800) as [Hlt|Hge].
      + destruct (Z_lt_le_dec (w - 16) 0) as [Hneg|Hpos].
        * (* a negative width gives a scale below the minimum *)
          exfalso.
          assert (HA0 : A <= 0).
          { rewrite HA. apply Qle_trans with (Binary64.round 0);
              [|vm_compute; discriminate].
            apply round_mono. change 0 with (inject_Z 0). rewrite <- Zle_Qle. lia. }
          assert (Hd : Binary64.div A 800 <= 0).
          { unfold Binary64.div. apply Qle_trans with (Binary64.round 0);
              [|vm_compute; discriminate].
            apply round_mono.
            assert (E : A / 800 == A * (1 # 800)) by apply Qdiv_as_mult.
            rewrite E. lra. }
          assert (M : 0 < Binary64.MIN_SCALE) by (vm_compute; reflexivity).
          assert (Hmin := Q.le_min_l (Qmin (Binary64.div A 800)
            (Binary64.div (Binary64.mul (inject_Z h) Binary64.six_tenths) 600)) 1).
          assert (Hmin' := Q.le_min_l (Binary64.div A 800)
            (Binary64.div (Binary64.mul (inject_Z h) Binary64.six_tenths) 600)).
          lra.
        * destruct (widthRow (w - 16) ltac:(lia)) as [R1 R2].
          assert (Ed : Binary64.div (Binary64.round (inject_Z (w - 16))) 800
                       == Binary64.div A 800)
            by (unfold Binary64.div; now rewrite HA).
          assert (T : F <= Math_floor (Binary64.mul 800
                         (Binary64.div (Binary64.round (inject_Z (w - 16))) 800))).
          { subst F. apply Math_floor_mono. unfold Binary64.mul. apply round_mono.
            lra. }
          lra.
      + eapply Qle_trans; [exact HF800|].
        rewrite HA. apply Qle_trans with (Binary64.round 800); [lra|].
        apply round_mono.
        change 800 with (inject_Z 800). rewrite <- Zle_Qle. exact Hge. }
  clearbody F A. destruct Hor; minmax; lra.
Qed.

(** C8, as stated, fails for the player speed: for a 400 x 1000 window the
    scale is the binary64 value of 0.48 and the speed is 8 times that,
    3.84, where the floor would give 3. *)
Lemma C8_speed_is_not_floored_binary64 :
  let d := Binary64.calculateDimensions 400 1000 in
  let sc := Binary64.calculateScale 400 1000 in
  sc == Binary64.round 0.48
  /\ GameDimensions.playerSpeed d == Binary64.round 3.84
  /\ Binary64.floorClamp BASE_PLAYER_SPEED 3 sc == 3
  /\ ~ Binary64.floorClampedGeometry d sc.
Proof.
  do 3 (split; [vm_compute; reflexivity|]).
  intros (_ & _ & _ & _ & H). revert H. vm_compute. discriminate.
Qed.

(** C8 (amended): [calculateDimensions] is a total function of the window
    size; its scale is [max(MIN_SCALE, min(availableWidth / BASE_WIDTH,
    innerHeight * 0.6 / BASE_HEIGHT, 1))] with
    [availableWidth = innerWidth - 16]; the field width and height, the
    player size and the object size are [floor (base * scale)] clamped below
    by 280, 200, 20 and 16; the player speed is [max 3 (8 * scale)] with no
    floor; so every extent and the speed are at least their positive
    minimum.  Every operation is the binary64 one. *)
Theorem C8_dimensions_binary64 (innerWidth innerHeight : Z) :
  let d := Binary64.calculateDimensions innerWidth innerHeight in
  let scale := Binary64.calculateScale innerWidth innerHeight in
  scale == Qmax Binary64.MIN_SCALE
             (Qmin (Qmin (Binary64.div (Binary64.sub (inject_Z innerWidth) 16)
                                       BASE_WIDTH)
                         (Binary64.div
                            (Binary64.mul (inject_Z innerHeight) Binary64.six_tenths)
                            BASE_HEIGHT))
                   1)
  /\ GameDimensions.width d == Binary64.floorClamp BASE_WIDTH MIN_WIDTH scale
  /\ GameDimensions.height d == Binary64.floorClamp BASE_HEIGHT MIN_HEIGHT scale
  /\ GameDimensions.playerSize d == Binary64.floorClamp BASE_PLAYER_SIZE 20 scale
  /\ GameDimensions.objectSize d == Binary64.floorClamp BASE_OBJECT_SIZE 16 scale
  /\ GameDimensions.playerSpeed d == Qmax 3 (Binary64.mul BASE_PLAYER_SPEED scale)
  /\ (MIN_WIDTH <= GameDimensions.width d
      /\ MIN_HEIGHT <= GameDimensions.height d
      /\ 20 <= GameDimensions.playerSize d
      /\ 16 <= GameDimensions.objectSize d
      /\ 3 <= GameDimensions.playerSpeed d).
Proof.
  intros d scale.
  split; [|split; [|split; [|split; [|split; [|split]]]]].
  - subst scale. rewrite calculateScale64_unfold. apply Q.max_comm.
  - apply width64_min_redundant.
  - reflexivity.
  - reflexivity.
  - reflexivity.
  - reflexivity.
  - subst d. unfold Binary64.calculateDimensions.
    cbn [GameDimensions.width GameDimensions.height GameDimensions.playerSize
         GameDimensions.objectSize GameDimensions.playerSpeed].
    repeat split; apply Q.le_max_l.
Qed.

(** Two windows at which rounding moves a size below the exact floor: the
    exact scales 207/400 and 41/100 give 414 and 246. *)
Example rounded_sizes :
  GameDimensions.width (Binary64.calculateDimensions 430 932) == 413
  /\ GameDimensions.width (calculateDimensions 430 932) == 414
  /\ GameDimensions.height (Binary64.calculateDimensions 2000 410) == 245
  /\ GameDimensions.height (calculateDimensions 2000 410) == 246.
Proof. vm_compute. repeat split. Qed.
